(** * nodegit-flow: the hotfix and release workflows

    A shallow embedding of [src/Release.js] (class [Release]) and of its
    sibling class [Hotfix], and the properties of their [start] and
    [finish] operations.

    Both classes are produced by a factory
    [(NodeGit, { constants, utils }, { Config }) => ...]: the version-control
    engine, the utilities and the configuration reader are arguments of the
    code.  They are modelled here as an interface ([Engine]) over an abstract
    world; promise chains become a state-and-error monad that also records
    the trace of the calls made. *)

From stdpp Require Import base option list strings gmap.

Set Default Proof Using "Type".

(** ** Values *)

(** An object id; [Oid_toString] is [oid.toString()]. *)
Record Oid := { Oid_toString : string }.

(** [NodeGit.Oid.fromString] *)
Definition Oid_fromString (s : string) : Oid := {| Oid_toString := s |}.

(** A reference (a branch handle, or what [repo.head()] returns):
    its branch name and [target()]. *)
Record Reference := { ref_name : string; target : Oid }.

(** A commit; the code only reads [id()]. *)
Record Commit := { commit_id : Oid }.

(** The JavaScript values that travel through the pipelines. *)
Inductive Val :=
| VUndefined
| VBool (b : bool)
| VString (s : string)
| VOid (o : Oid)
| VReference (r : Reference)
| VCommit (c : Commit)
| VConfig (c : gmap string string).

(** A thrown or rejected [Error], with its message. *)
Inductive Exn := Error (message : string).

(** Truthiness of the inputs the code tests with [!x], [if (x)] or [||]. *)
Class Truthy (A : Type) := truthy : A → bool.

#[global] Instance truthy_string : Truthy (option string) := λ v,
  match v with
  | Some s => negb (String.eqb s "")
  | None => false
  end.

#[global] Instance truthy_bool : Truthy (option bool) := λ v,
  match v with
  | Some b => b
  | None => false
  end.

(** [String(a)] for a string that may be [undefined]. *)
Definition js_text (a : option string) : string :=
  match a with
  | Some s => s
  | None => "undefined"
  end.

(** [a + b] where one side at least is a string, the other may be
    [undefined]. *)
Definition js_concat (a b : option string) : string := js_text a ++ js_text b.

(** A string that may be [undefined], as a value. *)
Definition js_string (a : option string) : Val :=
  match a with
  | Some s => VString s
  | None => VUndefined
  end.

(** ** Calls and traces *)

(** The callbacks the workflows invoke. *)
Inductive Hook :=
| PostCheckoutHook
| BeforeMergeCallback
| PostDevelopMergeCallback
| PostMasterMergeCallback.

(** The two merge sites of [finish]. *)
Inductive Target := Develop | Master.

(** A branch given by name or by handle ([repo.checkoutBranch] takes both). *)
Inductive BranchArg :=
| ByName (name : option string)
| ByReference (r : Reference).

(** A commit given by sha or by oid ([NodeGit.Commit.lookup] takes both). *)
Inductive CommitArg :=
| BySha (sha : string)
| ByOid (o : Oid).

(** The calls a workflow makes to its collaborators, with their arguments. *)
Inductive Call :=
| CallGetConfig
| CallBranchLookup (name : option string)
| CallCommitLookup (c : CommitArg)
| CallGetCommit (o : Oid)
| CallCreateBranch (name : string) (c : Commit)
| CallHead
| CallCheckoutBranch (b : BranchArg)
| CallMerge (t : Target) (into from : Reference)
| CallTagCreate (oid : Val) (name : string) (message : option string)
| CallBranchDelete (name : string)
| CallHook (h : Hook) (args : list Val).

Section Promise.
Context {World : Type}.

(** An operation of a collaborator: it may change the world and may fail. *)
Definition Eff (A : Type) : Type := World → (Exn + A) * World.

(** A JavaScript function supplied by the caller. *)
Definition JsFun : Type := list Val → Eff Val.

(** [() => {}] *)
Definition noop : JsFun := λ _ w, (inr VUndefined, w).

(** One call, the world it started in, how it settled and the world it
    left. *)
Record Event := {
  ev_call : Call;
  ev_pre : World;
  ev_result : Exn + Val;
  ev_post : World
}.

(** A settled promise: the calls made, the world left and the outcome
    ([inl] rejected, [inr] resolved). *)
Record Run (A : Type) := {
  trace : list Event;
  final : World;
  outcome : Exn + A
}.
Global Arguments trace {A} _.
Global Arguments final {A} _.
Global Arguments outcome {A} _.

Definition Promise (A : Type) : Type := World → Run A.

(** [Promise.resolve(a)] *)
Definition Promise_resolve {A} (a : A) : Promise A :=
  λ w, {| trace := []; final := w; outcome := inr a |}.

(** [Promise.reject(e)] *)
Definition Promise_reject {A} (e : Exn) : Promise A :=
  λ w, {| trace := []; final := w; outcome := inl e |}.

(** The run [r], after the calls [tr]. *)
Definition prepend {A} (tr : list Event) (r : Run A) : Run A :=
  {| trace := tr ++ trace r; final := final r; outcome := outcome r |}.

(** [p.then(k)]: [k] runs once [p] has resolved, in the world [p] left;
    a rejection skips [k]. *)
Definition Promise_then {A B} (p : Promise A) (k : A → Promise B) : Promise B :=
  λ w,
    let r := p w in
    match outcome r with
    | inl e => {| trace := trace r; final := final r; outcome := inl e |}
    | inr a => prepend (trace r) (k a (final r))
    end.

(** [Promise.all(ps)]: every element is started, in array order; the
    result is the array of values, or the first rejection. *)
Fixpoint Promise_all {A} (ps : list (Promise A)) : Promise (list A) :=
  match ps with
  | [] => Promise_resolve []
  | p :: ps' => λ w,
      let r := p w in
      let rs := Promise_all ps' (final r) in
      {| trace := trace r ++ trace rs;
         final := final rs;
         outcome :=
           match outcome r, outcome rs with
           | inl e, _ => inl e
           | inr _, inl e => inl e
           | inr a, inr l => inr (a :: l)
           end |}
  end.

(** A call to a collaborator: it is recorded with its result, encoded as
    a value by [enc]. *)
Definition invoke {A} (c : Call) (enc : A → Val) (op : Eff A) : Promise A :=
  λ w,
    let '(r, w') := op w in
    {| trace := [ {| ev_call := c; ev_pre := w;
                     ev_result := match r with
                                  | inl e => inl e
                                  | inr a => inr (enc a)
                                  end;
                     ev_post := w' |} ];
       final := w';
       outcome := r |}.

(** A call of a callback. *)
Definition callHook (h : Hook) (f : JsFun) (args : list Val) : Promise Val :=
  invoke (CallHook h args) (λ v, v) (f args).
End Promise.

Global Arguments Eff : clear implicits.
Global Arguments JsFun : clear implicits.
Global Arguments Event : clear implicits.
Global Arguments Run : clear implicits.
Global Arguments Promise : clear implicits.

Notation "x <- p ;; k" := (Promise_then p (λ x, k))
  (at level 100, p at next level, right associativity,
   format "'[v' x  <-  p  ;;  '/' k ']'").

(** ** Collaborators *)

(** What the factory is given: [constants], [Config], the [NodeGit] engine and
    the primitive operations of [utils].  Every operation acts on the world
    and may fail. *)
Class Engine (World Repo : Type) := {
  (** [constants.ErrorMessage.REPO_REQUIRED] *)
  REPO_REQUIRED : string;
  (** [Config.getConfig(repo)]: the flat configuration mapping *)
  eng_getConfig : Repo → Eff World (gmap string string);
  (** [NodeGit.Branch.lookup(repo, name, NodeGit.Branch.BRANCH.LOCAL)] *)
  eng_branchLookup : Repo → option string → Eff World Reference;
  (** [NodeGit.Commit.lookup(repo, id)] *)
  eng_commitLookup : Repo → CommitArg → Eff World Commit;
  (** [repo.getCommit(oid)] *)
  eng_getCommit : Repo → Oid → Eff World Commit;
  (** [repo.createBranch(name, commit)] *)
  eng_createBranch : Repo → string → Commit → Eff World Reference;
  (** [repo.head()] *)
  eng_head : Repo → Eff World Reference;
  (** [repo.checkoutBranch(branch)] *)
  eng_checkoutBranch : Repo → BranchArg → Eff World unit;
  (** [utils.Repo.merge(toBranch, fromBranch, repo, processMergeMessageCallback,
      signingCallback)]; the two callbacks arrive as the caller gave them,
      [None] being [undefined] *)
  eng_merge : Reference → Reference → Repo →
              option (JsFun World) → option (JsFun World) → Eff World Val;
  (** [utils.Tag.create(oid, tagName, message, repo)] *)
  eng_tagCreate : Val → string → option string → Repo → Eff World Val;
  (** deletion of a local branch by name *)
  eng_branchDelete : Repo → string → Eff World unit
}.

Module Config.
Definition getConfig {World Repo} `{!Engine World Repo} (repo : Repo)
  : Promise World (gmap string string) :=
  invoke CallGetConfig VConfig (eng_getConfig repo).
End Config.

Module NodeGit.
Module Branch.
Definition lookup {World Repo} `{!Engine World Repo}
    (repo : Repo) (name : option string) : Promise World Reference :=
  invoke (CallBranchLookup name) VReference (eng_branchLookup repo name).

Definition delete {World Repo} `{!Engine World Repo}
    (repo : Repo) (name : string) : Promise World unit :=
  invoke (CallBranchDelete name) (λ _, VUndefined) (eng_branchDelete repo name).
End Branch.

Module Commit.
Definition lookup {World Repo} `{!Engine World Repo}
    (repo : Repo) (c : CommitArg) : Promise World Commit :=
  invoke (CallCommitLookup c) VCommit (eng_commitLookup repo c).
End Commit.
End NodeGit.

(** The methods of the repository handle. *)
Module Repository.
Definition getCommit {World Repo} `{!Engine World Repo}
    (repo : Repo) (o : Oid) : Promise World Commit :=
  invoke (CallGetCommit o) VCommit (eng_getCommit repo o).

Definition createBranch {World Repo} `{!Engine World Repo}
    (repo : Repo) (name : string) (c : Commit) : Promise World Reference :=
  invoke (CallCreateBranch name c) VReference (eng_createBranch repo name c).

Definition head {World Repo} `{!Engine World Repo} (repo : Repo)
  : Promise World Reference :=
  invoke CallHead VReference (eng_head repo).

Definition checkoutBranch {World Repo} `{!Engine World Repo}
    (repo : Repo) (b : BranchArg) : Promise World unit :=
  invoke (CallCheckoutBranch b) (λ _, VUndefined) (eng_checkoutBranch repo b).
End Repository.

Module utils.
Module Repo.
(** [utils.Repo.merge]; [t] names the call site in the trace. *)
Definition merge {World Repo} `{!Engine World Repo}
    (t : Target) (toBranch fromBranch : Reference) (repo : Repo)
    (processMergeMessageCallback signingCallback : option (JsFun World))
  : Promise World Val :=
  invoke (CallMerge t toBranch fromBranch) (λ v, v)
    (eng_merge toBranch fromBranch repo
       processMergeMessageCallback signingCallback).

(** Modelled from the spec: [utils.Repo.safelyDeleteBranch] is not among
    the sources.  The spec: deletion must be safe; if HEAD currently
    points at the branch being deleted, first check out the fallback
    (master) branch, invoking [postCheckoutHook] with the old and new
    HEAD targets, and only then delete. *)
Definition safelyDeleteBranch {World Repo} `{!Engine World Repo}
    (repo : Repo) (branchName : string)
    (branchNameToCheckout : option string)
    (postCheckoutHook : JsFun World) : Promise World unit :=
  headRef <- Repository.head repo ;;
  _ <- (if bool_decide (ref_name headRef = branchName) then
          _ <- Repository.checkoutBranch repo (ByName branchNameToCheckout) ;;
          newHeadRef <- Repository.head repo ;;
          _ <- callHook PostCheckoutHook postCheckoutHook
                 [VString (Oid_toString (target headRef));
                  VString (Oid_toString (target newHeadRef))] ;;
          Promise_resolve tt
        else Promise_resolve tt) ;;
  NodeGit.Branch.delete repo branchName.
End Repo.

Module Tag.
Definition create {World Repo} `{!Engine World Repo}
    (oid : Val) (tagName : string) (message : option string) (repo : Repo)
  : Promise World Val :=
  invoke (CallTagCreate oid tagName message) (λ v, v)
    (eng_tagCreate oid tagName message repo).
End Tag.

(** Modelled from the spec: [utils.InjectIntermediateCallback] is not among
    the sources.  The spec: the merge result is passed through the hook and
    the hook's result becomes the new value of the pipeline
    ("value = hook(value)").  [h] names the hook in the trace. *)
Definition InjectIntermediateCallback {World}
    (h : Hook) (callback : JsFun World) : Val → Promise World Val :=
  λ value, callHook h callback [value].
End utils.

(** ** Options *)

(** The options object of [start] and [finish]; [None] is an omitted field. *)
Record Options (World : Type) := {
  keepBranch : option bool;
  message : option string;
  processMergeMessageCallback : option (JsFun World);
  beforeMergeCallback : option (JsFun World);
  postDevelopMergeCallback : option (JsFun World);
  postMasterMergeCallback : option (JsFun World);
  postCheckoutHook : option (JsFun World);
  signingCallback : option (JsFun World);
  onlyMaster : option bool;
  sha : option string
}.
Global Arguments keepBranch {World} _.
Global Arguments message {World} _.
Global Arguments processMergeMessageCallback {World} _.
Global Arguments beforeMergeCallback {World} _.
Global Arguments postDevelopMergeCallback {World} _.
Global Arguments postMasterMergeCallback {World} _.
Global Arguments postCheckoutHook {World} _.
Global Arguments signingCallback {World} _.
Global Arguments onlyMaster {World} _.
Global Arguments sha {World} _.

(** [{}] *)
Definition no_options {World} : Options World :=
  {| keepBranch := None; message := None;
     processMergeMessageCallback := None; beforeMergeCallback := None;
     postDevelopMergeCallback := None; postMasterMergeCallback := None;
     postCheckoutHook := None; signingCallback := None;
     onlyMaster := None; sha := None |}.

(** ** The workflows *)

Section Workflows.
Context {World Repo : Type} `{!Engine World Repo}.

(** *** Release ([src/Release.js]) *)

(** [Release.startRelease(repo, releaseVersion, options = {})] *)
Definition startRelease (repo : option Repo) (releaseVersion : option string)
    (options : option (Options World)) : Promise World Reference :=
  let options := default no_options options in
  let postCheckoutHook := default noop (postCheckoutHook options) in
  let sha := sha options in
  match repo with
  | None => Promise_reject (Error REPO_REQUIRED)
  | Some repo =>
    if negb (truthy releaseVersion)
    then Promise_reject (Error "Release version is required")
    else
      config <- Config.getConfig repo ;;
      let releasePrefix := config !! "gitflow.prefix.release" in
      let developBranchName := config !! "gitflow.branch.develop" in
      let releaseBranchName := js_concat releasePrefix releaseVersion in
      startingCommit <-
        (* If we have a sha look that up instead of the develop branch *)
        (if truthy sha
         then NodeGit.Commit.lookup repo (BySha (js_text sha))
         else
           developBranch <- NodeGit.Branch.lookup repo developBranchName ;;
           NodeGit.Commit.lookup repo (ByOid (target developBranch))) ;;
      _releaseBranch <- Repository.createBranch repo releaseBranchName startingCommit ;;
      let releaseBranch := _releaseBranch in
      headRef <- Repository.head repo ;;
      _ <- Repository.checkoutBranch repo (ByReference releaseBranch) ;;
      newHeadRef <- Repository.head repo ;;
      _ <- callHook PostCheckoutHook postCheckoutHook
             [VString (Oid_toString (target headRef));
              VString (Oid_toString (target newHeadRef))] ;;
      Promise_resolve releaseBranch
  end.

(** [Release.finishRelease(repo, releaseVersion, options = {})] *)
Definition finishRelease (repo : option Repo) (releaseVersion : option string)
    (options : option (Options World)) : Promise World Val :=
  let options := default no_options options in
  let keepBranch := keepBranch options in
  let message := message options in
  let processMergeMessageCallback := processMergeMessageCallback options in
  let beforeMergeCallback := default noop (beforeMergeCallback options) in
  let postDevelopMergeCallback := default noop (postDevelopMergeCallback options) in
  let postMasterMergeCallback := default noop (postMasterMergeCallback options) in
  let postCheckoutHook := default noop (postCheckoutHook options) in
  let signingCallback := signingCallback options in
  let onlyMaster := default false (onlyMaster options) in
  match repo with
  | None => Promise_reject (Error "Repo is required")
  | Some repo =>
    if negb (truthy releaseVersion)
    then Promise_reject (Error "Release name is required")
    else
      config <- Config.getConfig repo ;;
      let developBranchName := config !! "gitflow.branch.develop" in
      let releaseBranchName :=
        js_concat (config !! "gitflow.prefix.release") releaseVersion in
      let masterBranchName := config !! "gitflow.branch.master" in
      let versionPrefix := config !! "gitflow.prefix.versiontag" in
      (* Get the develop, master, and release branch *)
      branches <-
        Promise_all
          (map (λ branchName, NodeGit.Branch.lookup repo branchName)
             [developBranchName; Some releaseBranchName; masterBranchName]) ;;
      (* Get the commits that the develop, master, and release branches
         point to *)
      commits <-
        Promise_all
          (map (λ branch, Repository.getCommit repo (target branch)) branches) ;;
      match branches, commits with
      | [developBranch; releaseBranch; masterBranch],
        [developCommit; releaseCommit; masterCommit] =>
        (* If either develop or master point to the same commit as the
           release branch cancel their respective merge *)
        let cancelDevelopMerge :=
          onlyMaster ||
          bool_decide (Oid_toString (commit_id developCommit)
                       = Oid_toString (commit_id releaseCommit)) in
        let cancelMasterMerge :=
          bool_decide (Oid_toString (commit_id masterCommit)
                       = Oid_toString (commit_id releaseCommit)) in
        _mergeCommit <-
          (* Merge release into develop *)
          (if negb cancelDevelopMerge
           then
             _ <- callHook BeforeMergeCallback beforeMergeCallback
                    [js_string developBranchName; VString releaseBranchName] ;;
             merged <- utils.Repo.merge Develop developBranch releaseBranch repo
                         processMergeMessageCallback signingCallback ;;
             utils.InjectIntermediateCallback
               PostDevelopMergeCallback postDevelopMergeCallback merged
           else Promise_resolve VUndefined) ;;
        let mergeCommit := _mergeCommit in
        let tagName := js_concat versionPrefix releaseVersion in
        _ <-
          (* Merge the release branch into master *)
          (if negb cancelMasterMerge
           then
             _ <- callHook BeforeMergeCallback beforeMergeCallback
                    [js_string masterBranchName; VString releaseBranchName] ;;
             merged <- utils.Repo.merge Master masterBranch releaseBranch repo
                         processMergeMessageCallback signingCallback ;;
             oid <- utils.InjectIntermediateCallback
                      PostMasterMergeCallback postMasterMergeCallback merged ;;
             utils.Tag.create oid tagName message repo
           else
             let masterOid :=
               Oid_fromString (Oid_toString (commit_id masterCommit)) in
             utils.Tag.create (VOid masterOid) tagName message repo) ;;
        _ <-
          (if truthy keepBranch
           then Promise_resolve tt
           else utils.Repo.safelyDeleteBranch
                  repo releaseBranchName masterBranchName postCheckoutHook) ;;
        Promise_resolve mergeCommit
      | _, _ =>
        (* [commits[i]] is [undefined]: [.id()] throws *)
        Promise_reject (Error "TypeError")
      end
  end.

(** *** Hotfix (the sibling class) *)

(** [Hotfix.startHotfix(repo, hotfixVersion, options = {})] *)
Definition startHotfix (repo : option Repo) (hotfixVersion : option string)
    (options : option (Options World)) : Promise World Reference :=
  let options := default no_options options in
  let postCheckoutHook := default noop (postCheckoutHook options) in
  match repo with
  | None => Promise_reject (Error REPO_REQUIRED)
  | Some repo =>
    if negb (truthy hotfixVersion)
    then Promise_reject (Error "Hotfix version is required")
    else
      config <- Config.getConfig repo ;;
      let hotfixPrefix := config !! "gitflow.prefix.hotfix" in
      let masterBranchName := config !! "gitflow.branch.master" in
      let hotfixBranchName := js_concat hotfixPrefix hotfixVersion in
      masterBranch <- NodeGit.Branch.lookup repo masterBranchName ;;
      localMasterCommit <- NodeGit.Commit.lookup repo (ByOid (target masterBranch)) ;;
      _hotfixBranch <- Repository.createBranch repo hotfixBranchName localMasterCommit ;;
      let hotfixBranch := _hotfixBranch in
      headRef <- Repository.head repo ;;
      _ <- Repository.checkoutBranch repo (ByReference hotfixBranch) ;;
      newHeadRef <- Repository.head repo ;;
      _ <- callHook PostCheckoutHook postCheckoutHook
             [VString (Oid_toString (target headRef));
              VString (Oid_toString (target newHeadRef))] ;;
      Promise_resolve hotfixBranch
  end.

(** [Hotfix.finishHotfix(repo, hotfixVersion, options = {})] *)
Definition finishHotfix (repo : option Repo) (hotfixVersion : option string)
    (options : option (Options World)) : Promise World Val :=
  let options := default no_options options in
  let keepBranch := keepBranch options in
  let message := message options in
  let processMergeMessageCallback := processMergeMessageCallback options in
  let beforeMergeCallback := default noop (beforeMergeCallback options) in
  let postDevelopMergeCallback := default noop (postDevelopMergeCallback options) in
  let postMasterMergeCallback := default noop (postMasterMergeCallback options) in
  let postCheckoutHook := default noop (postCheckoutHook options) in
  let signingCallback := signingCallback options in
  let onlyMaster := default false (onlyMaster options) in
  match repo with
  | None => Promise_reject (Error "Repo is required")
  | Some repo =>
    if negb (truthy hotfixVersion)
    then Promise_reject (Error "Hotfix name is required")
    else
      config <- Config.getConfig repo ;;
      let developBranchName := config !! "gitflow.branch.develop" in
      let hotfixBranchName :=
        js_concat (config !! "gitflow.prefix.hotfix") hotfixVersion in
      let masterBranchName := config !! "gitflow.branch.master" in
      let versionPrefix := config !! "gitflow.prefix.versiontag" in
      (* Get the develop, master, and hotfix branch *)
      branches <-
        Promise_all
          (map (λ branchName, NodeGit.Branch.lookup repo branchName)
             [developBranchName; Some hotfixBranchName; masterBranchName]) ;;
      (* Get the commits that the develop, master, and hotfix branches
         point to *)
      commits <-
        Promise_all
          (map (λ branch, Repository.getCommit repo (target branch)) branches) ;;
      match branches, commits with
      | [developBranch; hotfixBranch; masterBranch],
        [developCommit; hotfixCommit; masterCommit] =>
        (* If either develop or master point to the same commit as the
           hotfix branch cancel their respective merge *)
        let cancelDevelopMerge :=
          onlyMaster ||
          bool_decide (Oid_toString (commit_id developCommit)
                       = Oid_toString (commit_id hotfixCommit)) in
        let cancelMasterMerge :=
          bool_decide (Oid_toString (commit_id masterCommit)
                       = Oid_toString (commit_id hotfixCommit)) in
        _mergeCommit <-
          (* Merge hotfix into develop *)
          (if negb cancelDevelopMerge
           then
             _ <- callHook BeforeMergeCallback beforeMergeCallback
                    [js_string developBranchName; VString hotfixBranchName] ;;
             merged <- utils.Repo.merge Develop developBranch hotfixBranch repo
                         processMergeMessageCallback signingCallback ;;
             utils.InjectIntermediateCallback
               PostDevelopMergeCallback postDevelopMergeCallback merged
           else Promise_resolve VUndefined) ;;
        let mergeCommit := _mergeCommit in
        let tagName := js_concat versionPrefix hotfixVersion in
        _ <-
          (* Merge the hotfix branch into master *)
          (if negb cancelMasterMerge
           then
             _ <- callHook BeforeMergeCallback beforeMergeCallback
                    [js_string masterBranchName; VString hotfixBranchName] ;;
             merged <- utils.Repo.merge Master masterBranch hotfixBranch repo
                         processMergeMessageCallback signingCallback ;;
             oid <- utils.InjectIntermediateCallback
                      PostMasterMergeCallback postMasterMergeCallback merged ;;
             utils.Tag.create oid tagName message repo
           else
             (* If the merge is cancelled only tag the master commit *)
             let masterOid :=
               Oid_fromString (Oid_toString (commit_id masterCommit)) in
             utils.Tag.create (VOid masterOid) tagName message repo) ;;
        _ <-
          (if truthy keepBranch
           then Promise_resolve tt
           else utils.Repo.safelyDeleteBranch
                  repo hotfixBranchName masterBranchName postCheckoutHook) ;;
        Promise_resolve mergeCommit
      | _, _ =>
        (* [commits[i]] is [undefined]: [.id()] throws *)
        Promise_reject (Error "TypeError")
      end
  end.
End Workflows.

(** ** An in-memory repository

    A concrete engine on which the workflows can be run. *)

Module MemGit.
(** A stored commit. *)
Record Stored := {
  parents : list Oid;
  commit_message : Val;
  signature : option Val
}.

(** The repository: configuration, local branches, the branch HEAD is on,
    the object store (keyed by the hex form of the oid) and the tags. *)
Record Repository := {
  config : gmap string string;
  branches : gmap string Oid;
  HEAD : string;
  objects : gmap string Stored;
  tags : gmap string (Val * option string)
}.

Definition set_branch (name : string) (o : Oid) (w : Repository) : Repository :=
  {| config := config w; branches := <[name := o]> (branches w);
     HEAD := HEAD w; objects := objects w; tags := tags w |}.

Definition drop_branch (name : string) (w : Repository) : Repository :=
  {| config := config w; branches := delete name (branches w);
     HEAD := HEAD w; objects := objects w; tags := tags w |}.

Definition set_HEAD (name : string) (w : Repository) : Repository :=
  {| config := config w; branches := branches w;
     HEAD := name; objects := objects w; tags := tags w |}.

Definition store (o : Oid) (c : Stored) (w : Repository) : Repository :=
  {| config := config w; branches := branches w; HEAD := HEAD w;
     objects := <[Oid_toString o := c]> (objects w); tags := tags w |}.

Definition set_tag (name : string) (t : Val * option string)
    (w : Repository) : Repository :=
  {| config := config w; branches := branches w; HEAD := HEAD w;
     objects := objects w; tags := <[name := t]> (tags w) |}.

Definition getConfig (repo : string) : Eff Repository (gmap string string) :=
  λ w, (inr (config w), w).

Definition branchLookup (repo : string) (name : option string)
  : Eff Repository Reference :=
  λ w,
    match name with
    | None => (inl (Error "branch name required"), w)
    | Some n =>
        match branches w !! n with
        | Some o => (inr {| ref_name := n; target := o |}, w)
        | None => (inl (Error ("cannot locate local branch " ++ n)), w)
        end
    end.

Definition hex_of (c : CommitArg) : string :=
  match c with
  | BySha s => s
  | ByOid o => Oid_toString o
  end.

Definition commitLookup (repo : string) (c : CommitArg)
  : Eff Repository Commit :=
  λ w,
    match objects w !! hex_of c with
    | Some _ => (inr {| commit_id := Oid_fromString (hex_of c) |}, w)
    | None => (inl (Error ("object not found " ++ hex_of c)), w)
    end.

Definition getCommit (repo : string) (o : Oid) : Eff Repository Commit :=
  commitLookup repo (ByOid o).

Definition createBranch (repo : string) (name : string) (c : Commit)
  : Eff Repository Reference :=
  λ w,
    match branches w !! name with
    | Some _ => (inl (Error ("a reference with that name already exists " ++ name)), w)
    | None => (inr {| ref_name := name; target := commit_id c |},
               set_branch name (commit_id c) w)
    end.

Definition head (repo : string) : Eff Repository Reference :=
  λ w,
    match branches w !! HEAD w with
    | Some o => (inr {| ref_name := HEAD w; target := o |}, w)
    | None => (inl (Error "reference HEAD not found"), w)
    end.

Definition checkoutBranch (repo : string) (b : BranchArg)
  : Eff Repository unit :=
  λ w,
    match b with
    | ByName None => (inl (Error "branch name required"), w)
    | ByName (Some n) | ByReference {| ref_name := n |} =>
        match branches w !! n with
        | Some _ => (inr tt, set_HEAD n w)
        | None => (inl (Error ("cannot locate local branch " ++ n)), w)
        end
    end.

(** The merge commit of [toBranch] and [fromBranch]: its message is the
    generated one, passed through [processMergeMessageCallback] when the
    caller gave one; it is signed when a [signingCallback] was given.
    [toBranch] moves to the new commit. *)
Definition merge (toBranch fromBranch : Reference) (repo : string)
    (processMergeMessageCallback signingCallback : option (JsFun Repository))
  : Eff Repository Val :=
  λ w,
    let generated :=
      VString ("Merge branch " ++ ref_name fromBranch
               ++ " into " ++ ref_name toBranch) in
    let '(msg, w1) :=
      match processMergeMessageCallback with
      | Some f => f [generated] w
      | None => (inr generated, w)
      end in
    match msg with
    | inl e => (inl e, w1)
    | inr msg =>
        let '(sig, w2) :=
          match signingCallback with
          | Some g =>
              match g [msg] w1 with
              | (inl e, w2) => (inl e, w2)
              | (inr s, w2) => (inr (Some s), w2)
              end
          | None => (inr None, w1)
          end in
        match sig with
        | inl e => (inl e, w2)
        | inr sig =>
            let o :=
              Oid_fromString
                ("merge(" ++ Oid_toString (target toBranch) ++ ","
                 ++ Oid_toString (target fromBranch) ++ ")") in
            (inr (VOid o),
             set_branch (ref_name toBranch) o
               (store o {| parents := [target toBranch; target fromBranch];
                           commit_message := msg;
                           signature := sig |} w2))
        end
    end.

Definition tagCreate (oid : Val) (tagName : string) (message : option string)
    (repo : string) : Eff Repository Val :=
  λ w,
    match tags w !! tagName with
    | Some _ => (inl (Error ("tag already exists " ++ tagName)), w)
    | None => (inr oid, set_tag tagName (oid, message) w)
    end.

Definition branchDelete (repo : string) (name : string)
  : Eff Repository unit :=
  λ w,
    match branches w !! name with
    | None => (inl (Error ("cannot locate local branch " ++ name)), w)
    | Some _ =>
        if bool_decide (HEAD w = name)
        then (inl (Error ("cannot delete branch checked out " ++ name)), w)
        else (inr tt, drop_branch name w)
    end.

#[global] Instance engine : Engine Repository string := {|
  REPO_REQUIRED := "A repository is required";
  eng_getConfig := getConfig;
  eng_branchLookup := branchLookup;
  eng_commitLookup := commitLookup;
  eng_getCommit := getCommit;
  eng_createBranch := createBranch;
  eng_head := head;
  eng_checkoutBranch := checkoutBranch;
  eng_merge := merge;
  eng_tagCreate := tagCreate;
  eng_branchDelete := branchDelete
|}.

(** A root commit. *)
Definition root : Stored :=
  {| parents := []; commit_message := VString "commit"; signature := None |}.

(** The usual git-flow configuration. *)
Definition gitflow : gmap string string :=
  list_to_map
    [("gitflow.branch.master", "master");
     ("gitflow.branch.develop", "develop");
     ("gitflow.prefix.hotfix", "hotfix/");
     ("gitflow.prefix.release", "release/");
     ("gitflow.prefix.versiontag", "v")].

(** master at M, develop at D, a workflow branch at H, HEAD on it. *)
Definition scenario (workflowBranch : string) : Repository :=
  {| config := gitflow;
     branches :=
       list_to_map
         [("master", Oid_fromString "M"); ("develop", Oid_fromString "D");
          (workflowBranch, Oid_fromString "H")];
     HEAD := workflowBranch;
     objects := list_to_map [("M", root); ("D", root); ("H", root)];
     tags := ∅ |}.

(** A hook that throws. *)
Definition throwing (msg : string) : JsFun Repository :=
  λ _ w, (inl (Error msg), w).
End MemGit.

(** Inputs on the in-memory repository. *)
Module Scenario.
Import MemGit.

Definition repo : string := "/repo".

(** Options whose [beforeMergeCallback] throws. *)
Definition beforeMerge_throws : Options Repository :=
  {| keepBranch := None; message := None;
     processMergeMessageCallback := None;
     beforeMergeCallback := Some (throwing "stop");
     postDevelopMergeCallback := None; postMasterMergeCallback := None;
     postCheckoutHook := None; signingCallback := None;
     onlyMaster := None; sha := None |}.

(** Options whose [postCheckoutHook] throws. *)
Definition postCheckout_throws : Options Repository :=
  {| keepBranch := None; message := None;
     processMergeMessageCallback := None; beforeMergeCallback := None;
     postDevelopMergeCallback := None; postMasterMergeCallback := None;
     postCheckoutHook := Some (throwing "stop"); signingCallback := None;
     onlyMaster := None; sha := None |}.

(** Options that keep the workflow branch. *)
Definition keep : Options Repository :=
  {| keepBranch := Some true; message := None;
     processMergeMessageCallback := None; beforeMergeCallback := None;
     postDevelopMergeCallback := None; postMasterMergeCallback := None;
     postCheckoutHook := None; signingCallback := None;
     onlyMaster := None; sha := None |}.

(** A callback that returns its argument. *)
Definition pass_through : JsFun Repository :=
  λ args w, (inr (hd VUndefined args), w).

(** Options whose callbacks after the merges return the merge commit. *)
Definition passing : Options Repository :=
  {| keepBranch := None; message := Some "release";
     processMergeMessageCallback := None; beforeMergeCallback := None;
     postDevelopMergeCallback := Some pass_through;
     postMasterMergeCallback := Some pass_through;
     postCheckoutHook := None; signingCallback := None;
     onlyMaster := None; sha := None |}.

(** Options with a [processMergeMessageCallback] and a [signingCallback]. *)
Definition signing : Options Repository :=
  {| keepBranch := None; message := None;
     processMergeMessageCallback := Some (λ _ w, (inr (VString "merged"), w));
     beforeMergeCallback := None;
     postDevelopMergeCallback := None; postMasterMergeCallback := None;
     postCheckoutHook := None;
     signingCallback := Some (λ _ w, (inr (VString "signed"), w));
     onlyMaster := None; sha := None |}.

(** Options that ask to start from the commit D. *)
Definition from_D : Options Repository :=
  {| keepBranch := None; message := None;
     processMergeMessageCallback := None; beforeMergeCallback := None;
     postDevelopMergeCallback := None; postMasterMergeCallback := None;
     postCheckoutHook := None; signingCallback := None;
     onlyMaster := None; sha := Some "D" |}.
End Scenario.

(** ** The two workflows side by side *)

Inductive Workflow := Release | Hotfix.

(** The configuration key of the workflow's branch prefix. *)
Definition prefixKey (k : Workflow) : string :=
  match k with
  | Release => "gitflow.prefix.release"
  | Hotfix => "gitflow.prefix.hotfix"
  end.

(** The configuration key of the branch [start] branches from. *)
Definition baseKey (k : Workflow) : string :=
  match k with
  | Release => "gitflow.branch.develop"
  | Hotfix => "gitflow.branch.master"
  end.

Section Steps.
Context {World Repo : Type} `{!Engine World Repo}.

Definition start (k : Workflow)
  : option Repo → option string → option (Options World) → Promise World Reference :=
  match k with
  | Release => startRelease
  | Hotfix => startHotfix
  end.

Definition finish (k : Workflow)
  : option Repo → option string → option (Options World) → Promise World Val :=
  match k with
  | Release => finishRelease
  | Hotfix => finishHotfix
  end.

(** What [finish] holds in its local variables once the three branches and
    their commits are resolved. *)
Record Resolved := {
  developBranchName : option string;
  workflowBranchName : string;
  masterBranchName : option string;
  versionPrefix : option string;
  developBranch : Reference;
  workflowBranch : Reference;
  masterBranch : Reference;
  developCommit : Commit;
  workflowCommit : Commit;
  masterCommit : Commit
}.

(** The first three callbacks of the [finish] chain: configuration,
    branches, commits. *)
Definition resolveBranches (k : Workflow) (repo : Repo)
    (version : option string) : Promise World Resolved :=
  config <- Config.getConfig repo ;;
  let developBranchName := config !! "gitflow.branch.develop" in
  let workflowBranchName := js_concat (config !! prefixKey k) version in
  let masterBranchName := config !! "gitflow.branch.master" in
  let versionPrefix := config !! "gitflow.prefix.versiontag" in
  branches <-
    Promise_all
      (map (λ branchName, NodeGit.Branch.lookup repo branchName)
         [developBranchName; Some workflowBranchName; masterBranchName]) ;;
  commits <-
    Promise_all
      (map (λ branch, Repository.getCommit repo (target branch)) branches) ;;
  match branches, commits with
  | [developBranch; workflowBranch; masterBranch],
    [developCommit; workflowCommit; masterCommit] =>
    Promise_resolve
      {| developBranchName := developBranchName;
         workflowBranchName := workflowBranchName;
         masterBranchName := masterBranchName;
         versionPrefix := versionPrefix;
         developBranch := developBranch;
         workflowBranch := workflowBranch;
         masterBranch := masterBranch;
         developCommit := developCommit;
         workflowCommit := workflowCommit;
         masterCommit := masterCommit |}
  | _, _ => Promise_reject (Error "TypeError")
  end.

(** The cancellation decision. *)
Definition cancelDevelopMerge (options : Options World) (t : Resolved) : bool :=
  default false (onlyMaster options) ||
  bool_decide (Oid_toString (commit_id (developCommit t))
               = Oid_toString (commit_id (workflowCommit t))).

Definition cancelMasterMerge (t : Resolved) : bool :=
  bool_decide (Oid_toString (commit_id (masterCommit t))
               = Oid_toString (commit_id (workflowCommit t))).

(** The merge into develop. *)
Definition developStep (repo : Repo) (options : Options World) (t : Resolved)
  : Promise World Val :=
  if negb (cancelDevelopMerge options t)
  then
    _ <- callHook BeforeMergeCallback (default noop (beforeMergeCallback options))
           [js_string (developBranchName t); VString (workflowBranchName t)] ;;
    merged <- utils.Repo.merge Develop (developBranch t) (workflowBranch t) repo
                (processMergeMessageCallback options) (signingCallback options) ;;
    utils.InjectIntermediateCallback PostDevelopMergeCallback
      (default noop (postDevelopMergeCallback options)) merged
  else Promise_resolve VUndefined.

(** The merge into master and the tag. *)
Definition masterStep (repo : Repo) (version : option string)
    (options : Options World) (t : Resolved) : Promise World Val :=
  let tagName := js_concat (versionPrefix t) version in
  if negb (cancelMasterMerge t)
  then
    _ <- callHook BeforeMergeCallback (default noop (beforeMergeCallback options))
           [js_string (masterBranchName t); VString (workflowBranchName t)] ;;
    merged <- utils.Repo.merge Master (masterBranch t) (workflowBranch t) repo
                (processMergeMessageCallback options) (signingCallback options) ;;
    oid <- utils.InjectIntermediateCallback PostMasterMergeCallback
             (default noop (postMasterMergeCallback options)) merged ;;
    utils.Tag.create oid tagName (message options) repo
  else
    let masterOid :=
      Oid_fromString (Oid_toString (commit_id (masterCommit t))) in
    utils.Tag.create (VOid masterOid) tagName (message options) repo.

(** The deletion of the workflow branch. *)
Definition cleanupStep (repo : Repo) (options : Options World) (t : Resolved)
  : Promise World unit :=
  if truthy (keepBranch options)
  then Promise_resolve tt
  else utils.Repo.safelyDeleteBranch repo (workflowBranchName t)
         (masterBranchName t) (default noop (postCheckoutHook options)).

(** The last four callbacks of the [finish] chain. *)
Definition finishSteps (repo : Repo) (version : option string)
    (options : Options World) (t : Resolved) : Promise World Val :=
  mergeCommit <- developStep repo options t ;;
  _ <- masterStep repo version options t ;;
  _ <- cleanupStep repo options t ;;
  Promise_resolve mergeCommit.
End Steps.


(** ** Observations on runs *)

Section Observations.
Context {World : Type}.

(** The call [c] of the event [e] returned [v]. *)
Definition returned (e : Event World) (c : Call) (v : Val) : Prop :=
  ev_call e = c ∧ ev_result e = inr v.

(** The call of the event [e] did not fail. *)
Definition ok (e : Event World) : Prop := ∃ v, ev_result e = inr v.

(** Each call starts in the world the previous one left: from [w], through
    [tr], to [w']. *)
Fixpoint chained (w : World) (tr : list (Event World)) (w' : World) : Prop :=
  match tr with
  | [] => w = w'
  | e :: tr' => ev_pre e = w ∧ chained (ev_post e) tr' w'
  end.

(** Only the last call may have failed. *)
Fixpoint fail_fast (tr : list (Event World)) : Prop :=
  match tr with
  | [] => True
  | e :: tr' =>
      match tr' with
      | [] => True
      | _ :: _ => ok e
      end ∧ fail_fast tr'
  end.

(** Some call of the run satisfies [P]. *)
Definition made {A} (P : Call → bool) (r : Run World A) : bool :=
  existsb (λ e, P (ev_call e)) (trace r).

Definition is_merge (t : Target) (c : Call) : bool :=
  match c, t with
  | CallMerge Develop _ _, Develop | CallMerge Master _ _, Master => true
  | _, _ => false
  end.

Definition is_hook (h : Hook) (c : Call) : bool :=
  match c, h with
  | CallHook PostCheckoutHook _, PostCheckoutHook
  | CallHook BeforeMergeCallback _, BeforeMergeCallback
  | CallHook PostDevelopMergeCallback _, PostDevelopMergeCallback
  | CallHook PostMasterMergeCallback _, PostMasterMergeCallback => true
  | _, _ => false
  end.

Definition is_tag (c : Call) : bool :=
  match c with
  | CallTagCreate _ _ _ => true
  | _ => false
  end.

Definition is_delete (c : Call) : bool :=
  match c with
  | CallBranchDelete _ => true
  | _ => false
  end.

Definition is_checkout (c : Call) : bool :=
  match c with
  | CallCheckoutBranch _ => true
  | _ => false
  end.

Definition is_sha_lookup (s : string) (c : Call) : bool :=
  match c with
  | CallCommitLookup (BySha s') => bool_decide (s' = s)
  | _ => false
  end.

(** The calls of the safe deletion of a branch. *)
Definition is_cleanup (c : Call) : bool :=
  match c with
  | CallHead | CallCheckoutBranch _ | CallBranchDelete _
  | CallHook PostCheckoutHook _ => true
  | _ => false
  end.

(** The error of the first failed call that satisfies [P], if any. *)
Fixpoint first_rejection (P : Call → bool) (tr : list (Event World))
  : option Exn :=
  match tr with
  | [] => None
  | e :: tr' =>
      match ev_result e with
      | inl err => if P (ev_call e) then Some err else first_rejection P tr'
      | inr _ => first_rejection P tr'
      end
  end.

(** The error with which the callback [h] rejected or threw, if it did. *)
Definition rejection {A} (h : Hook) (r : Run World A) : option Exn :=
  first_rejection (is_hook h) (trace r).

(** The operation [f] preserves [P]. *)
Definition keeps {A} (P : World → Prop) (f : Eff World A) : Prop :=
  ∀ w, P w → P (f w).2.

(** The merge into [t] was called. *)
Definition performed {A} (t : Target) (r : Run World A) : bool :=
  made (is_merge t) r.

(** The callback [h] was called. *)
Definition invoked {A} (h : Hook) (r : Run World A) : bool :=
  made (is_hook h) r.
End Observations.

(** The errors of the guards. *)
Definition MissingRepository `{!Engine World Repo} (e : Exn) : Prop :=
  e = Error REPO_REQUIRED ∨ e = Error "Repo is required".

Definition MissingVersion (e : Exn) : Prop :=
  e = Error "Release version is required" ∨
  e = Error "Release name is required" ∨
  e = Error "Hotfix version is required" ∨
  e = Error "Hotfix name is required".

Section Statements.
Context {World Repo : Type} `{!Engine World Repo}.

(** The branch [name] resolves in the world [w]. *)
Definition resolves (repo : Repo) (name : string) (w : World) : Prop :=
  ∃ b w', eng_branchLookup repo (Some name) w = (inr b, w').

(** Reading, merging with the callbacks given, tagging and the callbacks
    of [finish] leave the branch [name] in place. *)
Definition branch_untouched (repo : Repo) (options : Options World)
    (name : string) : Prop :=
  let P := resolves repo name in
  (∀ n, keeps P (eng_branchLookup repo n)) ∧
  (∀ o, keeps P (eng_getCommit repo o)) ∧
  (∀ a b, keeps P (eng_merge a b repo (processMergeMessageCallback options)
                     (signingCallback options))) ∧
  (∀ o n m, keeps P (eng_tagCreate o n m repo)) ∧
  (∀ args, keeps P (default noop (beforeMergeCallback options) args)) ∧
  (∀ args, keeps P (default noop (postDevelopMergeCallback options) args)) ∧
  (∀ args, keeps P (default noop (postMasterMergeCallback options) args)).

(** Deleting the branch [name] makes it unresolvable. *)
Definition delete_removes (repo : Repo) (name : string) : Prop :=
  ∀ w w', eng_branchDelete repo name w = (inr (), w') →
          ¬ resolves repo name w'.

(** The result of an operation, as the value a trace records. *)
Definition recorded {A} (enc : A → Val) (op : Eff World A) : Eff World Val :=
  λ w,
    let '(r, w') := op w in
    (match r with
     | inl e => inl e
     | inr a => inr (enc a)
     end, w').

(** The callback called under the name [h]: the one given, or the default
    [() => {}]. *)
Definition hook_of (h : Hook) (options : Options World) : JsFun World :=
  default noop
    match h with
    | PostCheckoutHook => postCheckoutHook options
    | BeforeMergeCallback => beforeMergeCallback options
    | PostDevelopMergeCallback => postDevelopMergeCallback options
    | PostMasterMergeCallback => postMasterMergeCallback options
    end.

(** What the call [c] runs when a workflow makes it on [repo] with the
    options [options]: the operation of the collaborator on the arguments of
    the call, the merge with [processMergeMessageCallback] and
    [signingCallback] as they were given. *)
Definition operation (repo : Repo) (options : Options World) (c : Call)
  : Eff World Val :=
  match c with
  | CallGetConfig => recorded VConfig (eng_getConfig repo)
  | CallBranchLookup name => recorded VReference (eng_branchLookup repo name)
  | CallCommitLookup c => recorded VCommit (eng_commitLookup repo c)
  | CallGetCommit o => recorded VCommit (eng_getCommit repo o)
  | CallCreateBranch name c => recorded VReference (eng_createBranch repo name c)
  | CallHead => recorded VReference (eng_head repo)
  | CallCheckoutBranch b =>
      recorded (λ _, VUndefined) (eng_checkoutBranch repo b)
  | CallMerge _ into from =>
      eng_merge into from repo (processMergeMessageCallback options)
        (signingCallback options)
  | CallTagCreate oid name message => eng_tagCreate oid name message repo
  | CallBranchDelete name =>
      recorded (λ _, VUndefined) (eng_branchDelete repo name)
  | CallHook h args => hook_of h options args
  end.

(** The event [e] records what its call did in the world it started in. *)
Definition answered (repo : Repo) (options : Options World)
    (e : Event World) : Prop :=
  operation repo options (ev_call e) (ev_pre e) = (ev_result e, ev_post e).

(** The calls of the safe deletion preserve [P]. *)
Definition cleanup_keeps (repo : Repo) (options : Options World)
    (P : World → Prop) : Prop :=
  keeps P (eng_head repo) ∧
  (∀ b, keeps P (eng_checkoutBranch repo b)) ∧
  (∀ args, keeps P (hook_of PostCheckoutHook options args)) ∧
  (∀ n, keeps P (eng_branchDelete repo n)).

(** [beforeMergeCallback], called on [args] in the world [w], returns. *)
Definition announces (options : Options World) (args : list Val) (w : World)
  : Prop :=
  ∃ v w', hook_of BeforeMergeCallback options args w = (inr v, w').

(** The calls of [finish] after the cancellation decision when no merge is
    cancelled, up to the tag; [m1], [m2] are what the merges returned and
    [oid] what [postMasterMergeCallback] returned. *)
Definition finish_calls (version : option string) (options : Options World)
    (t : Resolved) (m1 m2 oid : Val) : list Call :=
  [ CallHook BeforeMergeCallback
      [js_string (developBranchName t); VString (workflowBranchName t)];
    CallMerge Develop (developBranch t) (workflowBranch t);
    CallHook PostDevelopMergeCallback [m1];
    CallHook BeforeMergeCallback
      [js_string (masterBranchName t); VString (workflowBranchName t)];
    CallMerge Master (masterBranch t) (workflowBranch t);
    CallHook PostMasterMergeCallback [m2];
    CallTagCreate oid (js_concat (versionPrefix t) version) (message options) ].

(** [start] looks the [sha] option up: release only. *)
Definition starts_from_sha (k : Workflow) (options : Options World) : bool :=
  match k with
  | Release => truthy (sha options)
  | Hotfix => false
  end.

(** The options [o] with the hooks that [finish] gives a default made
    explicit. *)
Definition with_default_hooks (o : Options World) : Options World :=
  {| keepBranch := keepBranch o;
     message := message o;
     processMergeMessageCallback := processMergeMessageCallback o;
     beforeMergeCallback := Some (default noop (beforeMergeCallback o));
     postDevelopMergeCallback := Some (default noop (postDevelopMergeCallback o));
     postMasterMergeCallback := Some (default noop (postMasterMergeCallback o));
     postCheckoutHook := Some (default noop (postCheckoutHook o));
     signingCallback := signingCallback o;
     onlyMaster := onlyMaster o;
     sha := sha o |}.

(** The options [o] with all six hooks omitted, and with all six set to
    [h]. *)
Definition with_hooks (h : option (JsFun World)) (o : Options World)
  : Options World :=
  {| keepBranch := keepBranch o;
     message := message o;
     processMergeMessageCallback := h;
     beforeMergeCallback := h;
     postDevelopMergeCallback := h;
     postMasterMergeCallback := h;
     postCheckoutHook := h;
     signingCallback := h;
     onlyMaster := onlyMaster o;
     sha := sha o |}.

(** *** The claims that fail as they are written *)

(** The merges are performed exactly when the commits differ (and
    [onlyMaster] is off), in every call that reaches the decision. *)
Definition merges_iff_commits_differ (k : Workflow) (repo : Repo)
    (version : option string) (options : option (Options World))
    (w0 : World) : Prop :=
  ∀ t,
    truthy version = true →
    outcome (resolveBranches k repo version w0) = inr t →
    let r := finish k (Some repo) version options w0 in
    let wf := Oid_toString (commit_id (workflowCommit t)) in
    (performed Develop r = true ↔
       default false (onlyMaster (default no_options options)) = false ∧
       Oid_toString (commit_id (developCommit t)) ≠ wf) ∧
    (performed Master r = true ↔
       Oid_toString (commit_id (masterCommit t)) ≠ wf).

(** A supplied [sha] is looked up, whatever the workflow. *)
Definition sha_is_looked_up (k : Workflow) (repo : Repo)
    (version : option string) (options : Options World) (w0 : World) : Prop :=
  ∀ s b,
    sha options = Some s → s ≠ "" →
    outcome (start k (Some repo) version (Some options) w0) = inr b →
    made (is_sha_lookup s) (start k (Some repo) version (Some options) w0)
    = true.

(** A call without version fails with the version error, whatever the
    repository argument. *)
Definition version_guard_alone (k : Workflow) (repo : option Repo)
    (version : option string) (options : option (Options World))
    (w0 : World) : Prop :=
  truthy version = false →
  (∃ e, MissingVersion e ∧
        start k repo version options w0
        = {| trace := []; final := w0; outcome := inl e |}) ∧
  (∃ e, MissingVersion e ∧
        finish k repo version options w0
        = {| trace := []; final := w0; outcome := inl e |}).

(** Omitting the six hooks is the same as passing six no-ops. *)
Definition omitted_hooks_are_noops (k : Workflow) (repo : option Repo)
    (version : option string) (options : Options World) (w0 : World) : Prop :=
  finish k repo version (Some (with_hooks None options)) w0
  = finish k repo version (Some (with_hooks (Some noop) options)) w0.
End Statements.

(** ** The instances

    [new Release(repo)] and [new Hotfix(repo)] keep the repository; their
    methods pass it, followed by their own arguments, to the static
    functions. *)

Section Instances.
Context {World Repo : Type} `{!Engine World Repo}.

(** [constructor(repo) { this.repo = repo; }] of [Release] *)
Record ReleaseInstance := { release_repo : option Repo }.

Definition new_Release (repo : option Repo) : ReleaseInstance :=
  {| release_repo := repo |}.

(** [startRelease() { return Release.startRelease(this.repo, ...arguments); }] *)
Definition ReleaseInstance_startRelease (this : ReleaseInstance)
    (releaseVersion : option string) (options : option (Options World))
  : Promise World Reference :=
  startRelease (release_repo this) releaseVersion options.

(** [finishRelease() { return Release.finishRelease(this.repo, ...arguments); }] *)
Definition ReleaseInstance_finishRelease (this : ReleaseInstance)
    (releaseVersion : option string) (options : option (Options World))
  : Promise World Val :=
  finishRelease (release_repo this) releaseVersion options.

(** [constructor(repo) { this.repo = repo; }] of [Hotfix] *)
Record HotfixInstance := { hotfix_repo : option Repo }.

Definition new_Hotfix (repo : option Repo) : HotfixInstance :=
  {| hotfix_repo := repo |}.

(** [startHotfix() { return Hotfix.startHotfix(this.repo, ...arguments); }] *)
Definition HotfixInstance_startHotfix (this : HotfixInstance)
    (hotfixVersion : option string) (options : option (Options World))
  : Promise World Reference :=
  startHotfix (hotfix_repo this) hotfixVersion options.

(** [finishHotfix() { return Hotfix.finishHotfix(this.repo, ...arguments); }] *)
Definition HotfixInstance_finishHotfix (this : HotfixInstance)
    (hotfixVersion : option string) (options : option (Options World))
  : Promise World Val :=
  finishHotfix (hotfix_repo this) hotfixVersion options.
End Instances.

Global Arguments ReleaseInstance : clear implicits.
Global Arguments HotfixInstance : clear implicits.

(** ** More observations *)

Section Counting.
Context {World : Type}.

Definition is_getConfig (c : Call) : bool :=
  match c with
  | CallGetConfig => true
  | _ => false
  end.

Definition is_branch_lookup (c : Call) : bool :=
  match c with
  | CallBranchLookup _ => true
  | _ => false
  end.

Definition is_commit_lookup (c : Call) : bool :=
  match c with
  | CallCommitLookup _ => true
  | _ => false
  end.

Definition is_create (c : Call) : bool :=
  match c with
  | CallCreateBranch _ _ => true
  | _ => false
  end.

(** A call that changes the repository on behalf of [finish]. *)
Definition is_mutation (c : Call) : bool :=
  match c with
  | CallMerge _ _ _ | CallTagCreate _ _ _ | CallBranchDelete _
  | CallCheckoutBranch _ | CallCreateBranch _ _ => true
  | _ => false
  end.

(** The calls of the steps of [finish] that follow the resolution. *)
Definition is_step_call (c : Call) : bool :=
  match c with
  | CallHook _ _ | CallMerge _ _ _ | CallTagCreate _ _ _ | CallHead
  | CallCheckoutBranch _ | CallBranchDelete _ => true
  | _ => false
  end.

(** The creation, the lookup and the deletion of the branch [name]. *)
Definition is_create_named (name : string) (c : Call) : bool :=
  match c with
  | CallCreateBranch n _ => String.eqb n name
  | _ => false
  end.

Definition is_lookup_named (name : string) (c : Call) : bool :=
  match c with
  | CallBranchLookup (Some n) => String.eqb n name
  | _ => false
  end.

Definition is_delete_named (name : string) (c : Call) : bool :=
  match c with
  | CallBranchDelete n => String.eqb n name
  | _ => false
  end.

(** The calls of [tr] returned the values of [vs], call by call; [None]
    leaves a value free, and a failed call returned none. *)
Fixpoint answers (tr : list (Event World)) (vs : list (option Val)) : Prop :=
  match tr, vs with
  | e :: tr', v :: vs' =>
      match ev_result e, v with
      | inr x, Some v => x = v
      | _, _ => True
      end ∧ answers tr' vs'
  | _, _ => True
  end.

(** The number of calls of the run that satisfy [P]. *)
Definition count {A} (P : Call → bool) (r : Run World A) : nat :=
  length (List.filter (λ e, P (ev_call e)) (trace r)).

Definition succeeded_event (e : Event World) : bool :=
  match ev_result e with
  | inr _ => true
  | inl _ => false
  end.

(** Some call of the run that satisfies [P] succeeded. *)
Definition succeeded {A} (P : Call → bool) (r : Run World A) : bool :=
  existsb (λ e, P (ev_call e) && succeeded_event e) (trace r).
End Counting.

Section MoreStatements.
Context {World Repo : Type} `{!Engine World Repo}.

(** The calls of a [start] that goes through: [cfg] is the configuration
    read, [base] the base branch, [commit] the starting commit, [b] the
    branch created, [old] and [new] what HEAD was before and after the
    checkout. *)
Definition start_calls (k : Workflow) (version : option string)
    (options : Options World) (cfg : gmap string string)
    (base : Reference) (commit : Commit) (b old new : Reference) : list Call :=
  CallGetConfig ::
  (if starts_from_sha k options
   then [CallCommitLookup (BySha (js_text (sha options)))]
   else [CallBranchLookup (cfg !! baseKey k);
         CallCommitLookup (ByOid (target base))]) ++
  [ CallCreateBranch (js_concat (cfg !! prefixKey k) version) commit;
    CallHead;
    CallCheckoutBranch (ByReference b);
    CallHead;
    CallHook PostCheckoutHook
      [VString (Oid_toString (target old));
       VString (Oid_toString (target new))] ].

(** What these calls return, the callback apart. *)
Definition start_results (k : Workflow) (options : Options World)
    (cfg : gmap string string) (base : Reference) (commit : Commit)
    (b old new : Reference) : list (option Val) :=
  Some (VConfig cfg) ::
  (if starts_from_sha k options
   then [Some (VCommit commit)]
   else [Some (VReference base); Some (VCommit commit)]) ++
  [ Some (VReference b);
    Some (VReference old);
    Some VUndefined;
    Some (VReference new);
    None ].

(** The calls of the resolution of [finish]: the configuration and the
    three lookups. *)
Definition lookup_calls (k : Workflow) (version : option string)
    (cfg : gmap string string) : list Call :=
  [ CallGetConfig;
    CallBranchLookup (cfg !! "gitflow.branch.develop");
    CallBranchLookup (Some (js_concat (cfg !! prefixKey k) version));
    CallBranchLookup (cfg !! "gitflow.branch.master") ].

(** The calls of [finish] after the cancellation decision, up to the tag,
    whatever the decision: a cancelled merge contributes no call, and with
    the master merge cancelled the tag is put on the commit of master. *)
Definition decided_calls (version : option string) (options : Options World)
    (t : Resolved) (m1 m2 oid : Val) : list Call :=
  (if cancelDevelopMerge options t
   then []
   else [ CallHook BeforeMergeCallback
            [js_string (developBranchName t); VString (workflowBranchName t)];
          CallMerge Develop (developBranch t) (workflowBranch t);
          CallHook PostDevelopMergeCallback [m1] ]) ++
  (if cancelMasterMerge t
   then [ CallTagCreate
            (VOid (Oid_fromString (Oid_toString (commit_id (masterCommit t)))))
            (js_concat (versionPrefix t) version) (message options) ]
   else [ CallHook BeforeMergeCallback
            [js_string (masterBranchName t); VString (workflowBranchName t)];
          CallMerge Master (masterBranch t) (workflowBranch t);
          CallHook PostMasterMergeCallback [m2];
          CallTagCreate oid (js_concat (versionPrefix t) version)
            (message options) ]).

(** What these calls return: [m1] and [m2] the merges, [d] and [oid] the
    callbacks after them; the results of [beforeMergeCallback] and of the tag
    are not used. *)
Definition decided_results (options : Options World) (t : Resolved)
    (m1 d m2 oid : Val) : list (option Val) :=
  (if cancelDevelopMerge options t
   then []
   else [None; Some m1; Some d]) ++
  (if cancelMasterMerge t
   then [None]
   else [None; Some m2; Some oid; None]).

(** The branch a merge goes into, its configured name, whether the decision
    cancels the merge, and the call of [beforeMergeCallback] that announces
    it. *)
Definition target_branch (tg : Target) (t : Resolved) : Reference :=
  match tg with
  | Develop => developBranch t
  | Master => masterBranch t
  end.

Definition target_name (tg : Target) (t : Resolved) : option string :=
  match tg with
  | Develop => developBranchName t
  | Master => masterBranchName t
  end.

Definition cancelled (tg : Target) (options : Options World) (t : Resolved)
  : bool :=
  match tg with
  | Develop => cancelDevelopMerge options t
  | Master => cancelMasterMerge t
  end.

Definition announcement (tg : Target) (t : Resolved) : Call :=
  CallHook BeforeMergeCallback
    [js_string (target_name tg t); VString (workflowBranchName t)].

(** The number of merges the decision lets through. *)
Definition merges_due (options : Options World) (t : Resolved) : nat :=
  (if cancelDevelopMerge options t then 0 else 1) +
  (if cancelMasterMerge t then 0 else 1).

(** The options [o] with another [sha]. *)
Definition with_sha (s : option string) (o : Options World) : Options World :=
  {| keepBranch := keepBranch o;
     message := message o;
     processMergeMessageCallback := processMergeMessageCallback o;
     beforeMergeCallback := beforeMergeCallback o;
     postDevelopMergeCallback := postDevelopMergeCallback o;
     postMasterMergeCallback := postMasterMergeCallback o;
     postCheckoutHook := postCheckoutHook o;
     signingCallback := signingCallback o;
     onlyMaster := onlyMaster o;
     sha := s |}.
End MoreStatements.

(** What [finish] resolves on [MemGit.scenario]. *)
Definition scenario_resolved (workflowBranch : string) : Resolved :=
  {| developBranchName := Some "develop";
     workflowBranchName := workflowBranch;
     masterBranchName := Some "master";
     versionPrefix := Some "v";
     developBranch := {| ref_name := "develop"; target := Oid_fromString "D" |};
     workflowBranch := {| ref_name := workflowBranch; target := Oid_fromString "H" |};
     masterBranch := {| ref_name := "master"; target := Oid_fromString "M" |};
     developCommit := {| commit_id := Oid_fromString "D" |};
     workflowCommit := {| commit_id := Oid_fromString "H" |};
     masterCommit := {| commit_id := Oid_fromString "M" |} |}.

(** A configuration without prefixes, and the repository with it. *)
Definition bare_config : gmap string string :=
  list_to_map
    [("gitflow.branch.master", "master"); ("gitflow.branch.develop", "develop")].

Definition bare_scenario (workflowBranch : string) : MemGit.Repository :=
  {| MemGit.config := bare_config;
     MemGit.branches := MemGit.branches (MemGit.scenario workflowBranch);
     MemGit.HEAD := workflowBranch;
     MemGit.objects := MemGit.objects (MemGit.scenario workflowBranch);
     MemGit.tags := ∅ |}.

(** * Properties *)

(** ** Runs of promise chains *)

Section Runs.
Context {World : Type}.

Lemma then_run {A B} (p : Promise World A) (k : A → Promise World B) w :
  (x <- p ;; k x) w =
  match outcome (p w) with
  | inl e => {| trace := trace (p w); final := final (p w); outcome := inl e |}
  | inr a => prepend (trace (p w)) (k a (final (p w)))
  end.
Proof. reflexivity. Qed.

Lemma prepend_nil {A} (r : Run World A) : prepend [] r = r.
Proof. by destruct r. Qed.

Lemma prepend_prepend {A} tr1 tr2 (r : Run World A) :
  prepend tr1 (prepend tr2 r) = prepend (tr1 ++ tr2) r.
Proof. unfold prepend; cbn. by rewrite app_assoc. Qed.

Lemma then_assoc {A B C} (p : Promise World A) (k : A → Promise World B)
    (h : B → Promise World C) w :
  (x <- (y <- p ;; k y) ;; h x) w = (y <- p ;; x <- k y ;; h x) w.
Proof.
  rewrite !then_run. destruct (p w) as [tr w1 [e|a]]; cbn; [done|].
  rewrite then_run. destruct (k a w1) as [tr2 w2 [e|b]]; cbn; [done|].
  by rewrite prepend_prepend.
Qed.

Lemma invoke_eq {A} c (enc : A → Val) (op : Eff World A) w w' res :
  op w = (res, w') →
  invoke c enc op w =
  {| trace := [ {| ev_call := c; ev_pre := w;
                   ev_result := match res with
                                | inl e => inl e
                                | inr a => inr (enc a)
                                end;
                   ev_post := w' |} ];
     final := w'; outcome := res |}.
Proof. unfold invoke. by intros ->. Qed.

Lemma made_prepend {A} P tr (r : Run World A) :
  made P (prepend tr r) = existsb (λ e, P (ev_call e)) tr || made P r.
Proof. unfold made; cbn. by rewrite existsb_app. Qed.

Lemma made_then {A B} P (p : Promise World A) (k : A → Promise World B) w :
  made P ((x <- p ;; k x) w) =
  made P (p w) ||
  match outcome (p w) with
  | inl _ => false
  | inr a => made P (k a (final (p w)))
  end.
Proof.
  rewrite then_run. destruct (outcome (p w)).
  - by rewrite orb_false_r.
  - by rewrite made_prepend.
Qed.

Lemma chained_app w tr1 w1 tr2 w2 :
  chained w tr1 w1 → chained w1 tr2 w2 → chained (World:=World) w (tr1 ++ tr2) w2.
Proof.
  revert w. induction tr1 as [|e tr1 IH]; cbn; intros w.
  - by intros ->.
  - intros [-> H1] H2. eauto.
Qed.

Lemma suffix_here {A} (s : list A) : s = [] ++ s.
Proof. done. Qed.

Lemma suffix_step {A} (x : A) l p s : l = p ++ s → x :: l = (x :: p) ++ s.
Proof. by intros ->. Qed.

(** A property that every call of a chain preserves is preserved by the
    chain. *)
Lemma chained_preserves (P : World → Prop) w tr w' :
  chained w tr w' →
  (∀ e, e ∈ tr → P (ev_pre e) → P (ev_post e)) →
  P w → P w'.
Proof.
  revert w. induction tr as [|e tr IH]; cbn; intros w.
  - by intros ->.
  - intros [<- Hc] Hstep Hw. apply (IH (ev_post e)); [done| |].
    + intros e' He'. apply Hstep. by right.
    + apply Hstep; [by left | done].
Qed.
End Runs.

(** Symbolic execution of a chain, one call at a time. *)

Ltac unfold_api :=
  unfold Config.getConfig, NodeGit.Branch.lookup, NodeGit.Branch.delete,
    NodeGit.Commit.lookup, Repository.getCommit, Repository.createBranch,
    Repository.head, Repository.checkoutBranch, utils.Repo.merge,
    utils.Tag.create, utils.InjectIntermediateCallback, callHook in *.

Ltac unfold_steps :=
  unfold finishSteps, developStep, masterStep, cleanupStep,
    utils.Repo.safelyDeleteBranch in *; unfold_api.

Ltac run_simpl :=
  cbn [trace final outcome prepend app Promise_resolve Promise_reject
       map Promise_all negb] in *.

(** The next call is the first [invoke] applied to a world variable. *)
Ltac exec_invoke :=
  match goal with
  | |- context [invoke ?c ?enc ?op ?w] =>
      is_var w;
      let E := fresh "E" in
      destruct (op w) as [[?|?] ?] eqn:E;
      rewrite !(invoke_eq c enc op w _ _ E);
      run_simpl
  end.

(** A test of the chain under execution. *)
Ltac exec_if :=
  match goal with
  | |- (_ = ?X → _) =>
      match X with
      | context [if negb ?b then _ else _] => destruct b eqn:?
      | context [if ?b then _ else _] => destruct b eqn:?
      end
  end; run_simpl.

Ltac exec1 :=
  first
    [ rewrite then_assoc
    | rewrite then_run; run_simpl
    | exec_invoke
    | exec_if ].

Ltac exec := repeat exec1.

(** Name the run [r] of the goal and execute it; every resulting goal has the
    form [r = {| ... |} → _]. *)
Ltac exec_run r :=
  let x := fresh "r" in
  let Hx := fresh "Hr" in
  remember r as x eqn:Hx; revert Hx;
  unfold_steps; run_simpl; exec.

(** Execute the chain of the goal that starts in the world [w]. *)
Ltac exec_at w :=
  match goal with
  | |- context [Promise_then ?p ?k w] => exec_run (Promise_then p k w)
  end.

(** The same for the steps of [finish], by cases on the cancellation
    decision and on [keepBranch]. *)
Ltac exec_finish r options t :=
  let x := fresh "r" in
  let Hx := fresh "Hr" in
  remember r as x eqn:Hx; revert Hx;
  unfold_steps;
  destruct (cancelDevelopMerge options t) eqn:Hcd;
  destruct (cancelMasterMerge t) eqn:Hcm;
  destruct (truthy (keepBranch options)) eqn:Hkeep;
  run_simpl; exec; intros ->; cbn.

(** ** The structure of [finish] *)

Section FinishStructure.
Context {World Repo : Type} `{!Engine World Repo}.

(** [finish] is the resolution of the branches followed by the steps. *)
Lemma finish_steps k repo version options w :
  truthy version = true →
  finish k (Some repo) version options w
  = (t <- resolveBranches k repo version ;;
     finishSteps repo version (default no_options options) t) w.
Proof.
  intros Hv.
  destruct k; unfold finish, finishRelease, finishHotfix, resolveBranches;
    rewrite Hv; cbn [negb prefixKey].
  all: rewrite then_assoc; rewrite !(then_run (Config.getConfig repo)).
  all: destruct (Config.getConfig repo w) as [tr0 w0 [?|?]];
    cbn [trace final outcome]; [done|].
  all: f_equal; rewrite then_assoc; rewrite !(then_run (Promise_all _)).
  all: destruct (Promise_all _ _) as [tr1 w1 [?|branches]];
    cbn [trace final outcome]; [done|].
  all: f_equal; rewrite then_assoc; rewrite !(then_run (Promise_all _)).
  all: destruct (Promise_all _ _) as [tr2 w2 [?|commits]];
    cbn [trace final outcome]; [done|].
  all: f_equal.
  all: rewrite then_run.
  all: destruct branches as [|? [|? [|? [|]]]]; try done.
  all: destruct commits as [|? [|? [|? [|]]]]; try done.
  all: cbn [Promise_resolve outcome trace final].
  all: by rewrite prepend_nil.
Qed.

Lemma finish_run k repo version options w0 :
  truthy version = true →
  finish k (Some repo) version options w0
  = match outcome (resolveBranches k repo version w0) with
    | inl e =>
        {| trace := trace (resolveBranches k repo version w0);
           final := final (resolveBranches k repo version w0);
           outcome := inl e |}
    | inr t =>
        prepend (trace (resolveBranches k repo version w0))
          (finishSteps repo version (default no_options options) t
             (final (resolveBranches k repo version w0)))
    end.
Proof. intros Hv. by rewrite finish_steps. Qed.

(** A call of [finish] that resolves went through the guards and the
    resolution. *)
Lemma finish_resolved_inv k repo version options w0 v :
  outcome (finish k repo version options w0) = inr v →
  ∃ repo' t,
    repo = Some repo' ∧ truthy version = true ∧
    outcome (resolveBranches k repo' version w0) = inr t.
Proof.
  destruct repo as [repo'|]; [|by destruct k; cbn].
  destruct (truthy version) eqn:Hv.
  - rewrite finish_run by done.
    destruct (outcome (resolveBranches k repo' version w0)) as [e|t] eqn:Hres;
      [done|].
    intros _. by eexists _, _.
  - destruct k; unfold finish, finishRelease, finishHotfix; by rewrite Hv.
Qed.

(** What the resolution did when it succeeds. *)
Lemma resolveBranches_inv k repo version w0 t :
  outcome (resolveBranches k repo version w0) = inr t →
  ∃ cfg e0 e1 e2 e3 e4 e5 e6,
    trace (resolveBranches k repo version w0) = [e0; e1; e2; e3; e4; e5; e6] ∧
    chained w0 [e0; e1; e2; e3; e4; e5; e6]
      (final (resolveBranches k repo version w0)) ∧
    returned e0 CallGetConfig (VConfig cfg) ∧
    developBranchName t = cfg !! "gitflow.branch.develop" ∧
    workflowBranchName t = js_concat (cfg !! prefixKey k) version ∧
    masterBranchName t = cfg !! "gitflow.branch.master" ∧
    versionPrefix t = cfg !! "gitflow.prefix.versiontag" ∧
    returned e1 (CallBranchLookup (developBranchName t))
      (VReference (developBranch t)) ∧
    returned e2 (CallBranchLookup (Some (workflowBranchName t)))
      (VReference (workflowBranch t)) ∧
    returned e3 (CallBranchLookup (masterBranchName t))
      (VReference (masterBranch t)) ∧
    returned e4 (CallGetCommit (target (developBranch t)))
      (VCommit (developCommit t)) ∧
    returned e5 (CallGetCommit (target (workflowBranch t)))
      (VCommit (workflowCommit t)) ∧
    returned e6 (CallGetCommit (target (masterBranch t)))
      (VCommit (masterCommit t)) ∧
    resolves repo (workflowBranchName t) (ev_pre e2).
Proof.
  unfold resolveBranches. unfold_api.
  rewrite then_run; run_simpl. exec_invoke; [done|].
  rewrite then_run; run_simpl. do 3 exec_invoke; try done.
  rewrite then_run; run_simpl. do 3 exec_invoke; try done.
  intros [= <-]. cbn.
  eexists _, _, _, _, _, _, _, _. unfold returned, resolves; cbn.
  repeat split; try done. by eexists _, _.
Qed.

Lemma cancelDevelopMerge_false (options : Options World) t :
  cancelDevelopMerge options t = false ↔
  default false (onlyMaster options) = false ∧
  Oid_toString (commit_id (developCommit t))
  ≠ Oid_toString (commit_id (workflowCommit t)).
Proof.
  unfold cancelDevelopMerge. rewrite orb_false_iff, bool_decide_eq_false.
  done.
Qed.

Lemma cancelDevelopMerge_true (options : Options World) t :
  cancelDevelopMerge options t = true ↔
  default false (onlyMaster options) = true ∨
  Oid_toString (commit_id (developCommit t))
  = Oid_toString (commit_id (workflowCommit t)).
Proof.
  unfold cancelDevelopMerge. rewrite orb_true_iff, bool_decide_eq_true.
  done.
Qed.

Lemma cancelMasterMerge_false t :
  cancelMasterMerge t = false ↔
  Oid_toString (commit_id (masterCommit t))
  ≠ Oid_toString (commit_id (workflowCommit t)).
Proof. unfold cancelMasterMerge. by rewrite bool_decide_eq_false. Qed.

Lemma cancelMasterMerge_true t :
  cancelMasterMerge t = true ↔
  Oid_toString (commit_id (masterCommit t))
  = Oid_toString (commit_id (workflowCommit t)).
Proof. unfold cancelMasterMerge. by rewrite bool_decide_eq_true. Qed.

(** The resolution only reads the configuration, the branches and the
    commits. *)
Lemma resolveBranches_made k repo version w0 P :
  P CallGetConfig = false →
  (∀ n, P (CallBranchLookup n) = false) →
  (∀ o, P (CallGetCommit o) = false) →
  made P (resolveBranches k repo version w0) = false.
Proof.
  intros H0 H1 H2.
  remember (resolveBranches k repo version w0) as r eqn:Hr. revert Hr.
  unfold resolveBranches. unfold_api.
  rewrite then_run; run_simpl. exec_invoke.
  { intros ->. unfold made; cbn. by rewrite H0. }
  rewrite then_run; run_simpl. do 3 exec_invoke.
  all: try (intros ->; unfold made; cbn; by rewrite H0, !H1).
  rewrite then_run; run_simpl. do 3 exec_invoke.
  all: intros ->; unfold made; cbn; by rewrite H0, !H1, !H2.
Qed.
End FinishStructure.

(** ** What the calls run *)

(** The event of the goal is what its call did: by the equation of the
    executed call. *)
Ltac answer :=
  unfold answered, operation, recorded, hook_of;
  cbn [ev_call ev_pre ev_result ev_post];
  match goal with
  | E : ?op ?w = _ |- context [?op ?w] => rewrite E; reflexivity
  end.

Ltac answer_all := repeat (apply List.Forall_cons; [answer|]); apply List.Forall_nil.

Section Answered.
Context {World Repo : Type} `{!Engine World Repo}.

Lemma resolveBranches_answered k repo version (o : Options World) w0 :
  Forall (answered repo o) (trace (resolveBranches k repo version w0)).
Proof.
  remember (resolveBranches k repo version w0) as r eqn:Hr. revert Hr.
  unfold resolveBranches. unfold_api.
  rewrite then_run; run_simpl. exec_invoke.
  { intros ->; cbn. answer_all. }
  rewrite then_run; run_simpl. do 3 exec_invoke.
  all: try (intros ->; cbn; answer_all).
  rewrite then_run; run_simpl. do 3 exec_invoke.
  all: intros ->; cbn; answer_all.
Qed.

Lemma finishSteps_answered repo version (o : Options World) t w1 :
  Forall (answered repo o) (trace (finishSteps repo version o t w1)).
Proof.
  exec_finish (finishSteps repo version o t w1) o t.
  all: answer_all.
Qed.

(** Every call of [finish] is recorded with what it did. *)
Lemma finish_answered k repo version options w0 :
  Forall (answered repo (default no_options options))
    (trace (finish k (Some repo) version options w0)).
Proof.
  destruct (truthy version) eqn:Hv.
  2: { destruct k; unfold finish, finishRelease, finishHotfix; rewrite Hv;
       apply List.Forall_nil. }
  rewrite finish_run by done.
  pose proof (resolveBranches_answered k repo version
                (default no_options options) w0) as H0.
  destruct (outcome (resolveBranches k repo version w0)); cbn; [done|].
  apply Forall_app; split; [done|]. apply finishSteps_answered.
Qed.

(** Every call of [start] is recorded with what it did. *)
Lemma start_answered k repo version options w0 :
  Forall (answered repo (default no_options options))
    (trace (start k (Some repo) version options w0)).
Proof.
  destruct (truthy version) eqn:Hv.
  2: { destruct k; unfold start, startRelease, startHotfix; rewrite Hv;
       apply List.Forall_nil. }
  destruct k; unfold start, startRelease, startHotfix; rewrite Hv;
    cbn [negb]; exec_at w0; intros ->; cbn.
  all: answer_all.
Qed.
End Answered.

(** ** The cancellation decision *)

Section Decision.
Context {World Repo : Type} `{!Engine World Repo}.

(** C1, as amended.  In every call of [finish] that reaches the
    cancellation decision, the develop merge is performed if and only if
    [onlyMaster] is off, the develop and workflow commits differ and the
    call of [beforeMergeCallback] that announces it returns; the master
    merge is performed if and only if the master and workflow commits
    differ, the develop step did not fail and the call of
    [beforeMergeCallback] that announces it returns.  With [onlyMaster] on
    there is no develop merge.  In every call that reaches the creation of
    the tag, so in every call that resolves, the merges performed are
    exactly those whose commits differ. *)
Theorem finish_merge_decision k repo version options w0 t :
  truthy version = true →
  outcome (resolveBranches k repo version w0) = inr t →
  let o := default no_options options in
  let r0 := resolveBranches k repo version w0 in
  let r := finish k (Some repo) version options w0 in
  let rd := developStep repo o t (final r0) in
  let only := default false (onlyMaster o) in
  let wf := Oid_toString (commit_id (workflowCommit t)) in
  let develop_differs :=
    only = false ∧ Oid_toString (commit_id (developCommit t)) ≠ wf in
  let master_differs := Oid_toString (commit_id (masterCommit t)) ≠ wf in
  (performed Develop r = true ↔
     develop_differs ∧
     announces o
       [js_string (developBranchName t); VString (workflowBranchName t)]
       (final r0)) ∧
  (performed Master r = true ↔
     master_differs ∧
     (∃ v, outcome rd = inr v) ∧
     announces o
       [js_string (masterBranchName t); VString (workflowBranchName t)]
       (final rd)) ∧
  (only = true → performed Develop r = false) ∧
  (made is_tag r = true →
     (performed Develop r = true ↔ develop_differs) ∧
     (performed Master r = true ↔ master_differs)) ∧
  (∀ v, outcome r = inr v → made is_tag r = true).
Proof.
  intros Hv Hres o r0 r rd only wf develop_differs master_differs.
  subst r rd r0 develop_differs master_differs.
  rewrite finish_run, Hres by done.
  unfold performed. rewrite !made_prepend.
  pose proof (resolveBranches_made k repo version w0) as Hpre.
  unfold made in Hpre at 1. rewrite !Hpre by done.
  cbn [orb]. clear Hpre Hres Hv.
  generalize (final (resolveBranches k repo version w0)). intros w1.
  unfold announces, hook_of; cbv beta iota. fold o.
  exec_finish (finishSteps repo version o t w1) o t.
  all: apply cancelDevelopMerge_false in Hcd
       || apply cancelDevelopMerge_true in Hcd.
  all: apply cancelMasterMerge_false in Hcm
       || apply cancelMasterMerge_true in Hcm.
  all: fold only wf in Hcd, Hcm |- *.
  all: repeat match goal with
              | |- _ ∧ _ => split
              | |- _ ↔ _ => split
              end.
  all: try done.
  all: try (intros _; repeat split; try tauto;
            solve [by eexists | by eexists _, _]).
  all: try (intros Hx; decompose [and ex] Hx; clear Hx; intuition congruence).
  all: try (intros ? [= <-]).
  all: try (intros _; split; [split; [tauto|done] | tauto]).
  all: intros; intuition congruence.
Qed.

(** C9.  With [keepBranch] truthy, [finish] deletes no branch, checks
    nothing out and never calls [postCheckoutHook], however the call
    ends. *)
Theorem finish_keepBranch_no_cleanup k repo version options w0 :
  truthy (keepBranch (default no_options options)) = true →
  let r := finish k repo version options w0 in
  made is_delete r = false ∧
  made is_checkout r = false ∧
  invoked PostCheckoutHook r = false.
Proof.
  intros Hk r. subst r. unfold invoked.
  destruct repo as [repo|]; [|by destruct k].
  destruct (truthy version) eqn:Hv.
  2: { destruct k; unfold finish, finishRelease, finishHotfix;
       by rewrite Hv. }
  rewrite finish_steps by done.
  rewrite !(made_then _ (resolveBranches k repo version)).
  rewrite !resolveBranches_made by done. cbn [orb].
  destruct (resolveBranches k repo version w0) as [tr1 w1 [e|t]];
    cbn [outcome final]; [done|].
  exec_finish (finishSteps repo version (default no_options options) t w1)
    (default no_options options) t.
  all: done.
Qed.
End Decision.

(** C1 fails as it is written: [beforeMergeCallback] throws, the commits of
    develop and of the hotfix branch differ, [onlyMaster] is off, and no merge
    is performed. *)
Lemma merge_not_performed_when_callback_throws :
  ¬ merges_iff_commits_differ Hotfix Scenario.repo (Some "1.0")
      (Some Scenario.beforeMerge_throws) (MemGit.scenario "hotfix/1.0").
Proof.
  intros H.
  specialize (H _ eq_refl ltac:(vm_compute; reflexivity)).
  cbv zeta in H. destruct H as [[_ H] _].
  assert (Hp : performed Develop
                 (finish Hotfix (Some Scenario.repo) (Some "1.0")
                    (Some Scenario.beforeMerge_throws)
                    (MemGit.scenario "hotfix/1.0")) = false)
    by (vm_compute; reflexivity).
  rewrite Hp in H. cut (false = true); [done|]. apply H.
  split; [reflexivity|]. cbn. intros [=].
Qed.

Lemma finish_merge_decision_witness :
  ∃ t,
    truthy (Some "1.0") = true ∧
    outcome (resolveBranches Hotfix Scenario.repo (Some "1.0")
               (MemGit.scenario "hotfix/1.0")) = inr t ∧
    let o : Options MemGit.Repository := default no_options None in
    let r0 := resolveBranches Hotfix Scenario.repo (Some "1.0")
                (MemGit.scenario "hotfix/1.0") in
    let r := finish Hotfix (Some Scenario.repo) (Some "1.0") None
               (MemGit.scenario "hotfix/1.0") in
    let rd := developStep Scenario.repo o t (final r0) in
    let only := default false (onlyMaster o) in
    let wf := Oid_toString (commit_id (workflowCommit t)) in
    let develop_differs :=
      only = false ∧ Oid_toString (commit_id (developCommit t)) ≠ wf in
    let master_differs := Oid_toString (commit_id (masterCommit t)) ≠ wf in
    (performed Develop r = true ↔
       develop_differs ∧
       announces o
         [js_string (developBranchName t); VString (workflowBranchName t)]
         (final r0)) ∧
    (performed Master r = true ↔
       master_differs ∧
       (∃ v, outcome rd = inr v) ∧
       announces o
         [js_string (masterBranchName t); VString (workflowBranchName t)]
         (final rd)) ∧
    (only = true → performed Develop r = false) ∧
    (made is_tag r = true →
       (performed Develop r = true ↔ develop_differs) ∧
       (performed Master r = true ↔ master_differs)) ∧
    (∀ v, outcome r = inr v → made is_tag r = true).
Proof.
  eexists. split; [reflexivity|].
  split; [vm_compute; reflexivity|].
  apply (finish_merge_decision Hotfix Scenario.repo (Some "1.0") None
           (MemGit.scenario "hotfix/1.0")).
  - reflexivity.
  - vm_compute; reflexivity.
Defined.

Lemma finish_keepBranch_no_cleanup_witness :
  truthy (keepBranch (default no_options (Some Scenario.keep))) = true ∧
  let r := finish Release (Some Scenario.repo) (Some "1.0") (Some Scenario.keep)
             (MemGit.scenario "release/1.0") in
  made is_delete r = false ∧
  made is_checkout r = false ∧
  invoked PostCheckoutHook r = false.
Proof.
  split; [reflexivity|].
  apply (finish_keepBranch_no_cleanup Release (Some Scenario.repo) (Some "1.0")
           (Some Scenario.keep) (MemGit.scenario "release/1.0")).
  reflexivity.
Defined.

(** ** What [finish] returns and what it tags *)

(** An event is in a trace that ends with an explicit list holding it. *)
Ltac in_trace :=
  try (apply elem_of_app; right);
  repeat first [apply list_elem_of_here | apply list_elem_of_further].

(** Exhibit the merge into [t] and the callback [h] after it from the events
    of the goal. *)
Ltac exhibit_merge t h :=
  match goal with
  | |- context [ {| ev_call := CallMerge t ?a ?b; ev_pre := ?p;
                    ev_result := inr ?m; ev_post := ?q |} ] =>
      match goal with
      | |- context [ {| ev_call := CallHook h ?args; ev_pre := ?p';
                        ev_result := ?r'; ev_post := ?q' |} ] =>
          exists {| ev_call := CallMerge t a b; ev_pre := p;
                    ev_result := inr m; ev_post := q |},
                 {| ev_call := CallHook h args; ev_pre := p';
                    ev_result := r'; ev_post := q' |}, m
      end
  end; split; [in_trace|]; split; [in_trace|]; by unfold returned.

Section Result.
Context {World Repo : Type} `{!Engine World Repo}.

Lemma filter_none {A} (f : A → bool) l :
  existsb f l = false → List.filter f l = [].
Proof.
  induction l as [|x l IH]; cbn; [done|].
  intros [-> H]%orb_false_iff. auto.
Qed.

(** C2.  The value a successful [finish] resolves to is the outcome of the
    develop step, settled before any master merge or tag: [undefined] and no
    call of [postDevelopMergeCallback] when the develop merge is skipped,
    what [postDevelopMergeCallback] made of the merge commit when it is
    performed. *)
Theorem finish_result_is_develop_outcome k repo version options w0 t v :
  outcome (resolveBranches k repo version w0) = inr t →
  outcome (finish k (Some repo) version options w0) = inr v →
  let o := default no_options options in
  let r0 := resolveBranches k repo version w0 in
  let r := finish k (Some repo) version options w0 in
  let rd := developStep repo o t (final r0) in
  outcome rd = inr v ∧
  (∃ rest, trace r = trace r0 ++ trace rd ++ rest) ∧
  performed Master rd = false ∧
  made is_tag rd = false ∧
  (performed Develop r = false →
     v = VUndefined ∧ invoked PostDevelopMergeCallback r = false) ∧
  (performed Develop r = true →
     ∃ e_m e_h m,
       e_m ∈ trace r ∧ e_h ∈ trace r ∧
       returned e_m (CallMerge Develop (developBranch t) (workflowBranch t)) m ∧
       returned e_h (CallHook PostDevelopMergeCallback [m]) v).
Proof.
  intros Hres Hok o r0 r rd. subst r rd r0.
  destruct (finish_resolved_inv _ _ _ _ _ _ Hok) as (? & ? & _ & Hv & _).
  revert Hok. rewrite finish_run, Hres by done.
  unfold performed, invoked. rewrite !made_prepend.
  pose proof (resolveBranches_made k repo version w0) as Hpre.
  unfold made in Hpre at 1. rewrite !Hpre by done.
  cbn [orb]. clear Hpre Hres Hv.
  generalize (trace (resolveBranches k repo version w0)). intros tr1.
  generalize (final (resolveBranches k repo version w0)). intros w1.
  fold o.
  exec_finish (finishSteps repo version o t w1) o t.
  all: try (intros [=]; fail).
  all: intros [= <-].
  all: repeat match goal with |- _ ∧ _ => split end; try reflexivity.
  all: try match goal with |- ∃ _, _ => by eexists end.
  all: intros Hp; try discriminate Hp; try done.
  all: exhibit_merge Develop PostDevelopMergeCallback.
Qed.

Lemma recorded_snd {A} (enc : A → Val) (op : Eff World A) w :
  (recorded enc op w).2 = (op w).2.
Proof. unfold recorded. by destruct (op w). Qed.

(** What the calls of the safe deletion preserve holds after them. *)
Lemma cleanup_preserves repo (o : Options World) (P : World → Prop) w tr w' :
  chained w tr w' →
  Forall (λ e, is_cleanup (ev_call e) = true ∧ answered repo o e) tr →
  cleanup_keeps repo o P →
  P w → P w'.
Proof.
  intros Hc Hall (Hhead & Hco & Hhook & Hdel).
  apply (chained_preserves P w tr w' Hc).
  intros e He Hpre. rewrite List.Forall_forall in Hall.
  apply list_elem_of_In, Hall in He as [Hcl Hans].
  unfold answered in Hans.
  assert (Hpost : ev_post e = (operation repo o (ev_call e) (ev_pre e)).2)
    by (by rewrite Hans).
  rewrite Hpost.
  destruct (ev_call e) as [| | | | | |b| | |n|h args]; try discriminate Hcl;
    cbn [operation]; rewrite ?recorded_snd.
  - by apply Hhead.
  - by apply Hco.
  - by apply Hdel.
  - destruct h; try discriminate Hcl. by apply Hhook.
Qed.

(** C3.  A successful [finish] creates exactly one tag: one call of
    [utils.Tag.create], which succeeds, under the name made of the
    configured tag prefix and the version, with the message given; like
    every call of [finish] it is recorded with what it did.  The tag
    is put on what [postMasterMergeCallback] made of the master merge commit
    when that merge is performed, on the commit of master otherwise.  After
    the tag only the calls of the cleanup follow, none with [keepBranch]:
    what the creation of the tag established and the cleanup preserves holds
    when [finish] ends. *)
Theorem finish_tags_once k repo version options w0 t v :
  outcome (resolveBranches k repo version w0) = inr t →
  outcome (finish k (Some repo) version options w0) = inr v →
  let o := default no_options options in
  let r := finish k (Some repo) version options w0 in
  Forall (answered repo o) (trace r) ∧
  ∃ pre e cleanup oid cfg e0,
    trace r = pre ++ e :: cleanup ∧
    List.filter (λ e, is_tag (ev_call e)) (trace r) = [e] ∧
    ev_call e
    = CallTagCreate oid (js_concat (versionPrefix t) version) (message o) ∧
    versionPrefix t = cfg !! "gitflow.prefix.versiontag" ∧
    e0 ∈ pre ∧ returned e0 CallGetConfig (VConfig cfg) ∧
    ok e ∧
    eng_tagCreate oid (js_concat (versionPrefix t) version) (message o) repo
      (ev_pre e)
    = (ev_result e, ev_post e) ∧
    Forall (λ e', is_cleanup (ev_call e') = true ∧ answered repo o e') cleanup ∧
    chained (ev_post e) cleanup (final r) ∧
    (truthy (keepBranch o) = true → cleanup = []) ∧
    (∀ P : World → Prop,
       P (ev_post e) → cleanup_keeps repo o P → P (final r)) ∧
    (performed Master r = true →
       ∃ e_m e_h m,
         e_m ∈ pre ∧ e_h ∈ pre ∧
         returned e_m (CallMerge Master (masterBranch t) (workflowBranch t)) m ∧
         returned e_h (CallHook PostMasterMergeCallback [m]) oid ∧
         answered repo o e_m ∧ answered repo o e_h) ∧
    (performed Master r = false →
       oid = VOid (Oid_fromString (Oid_toString (commit_id (masterCommit t))))).
Proof.
  intros Hres Hok o r. subst r.
  split; [apply finish_answered|].
  destruct (finish_resolved_inv _ _ _ _ _ _ Hok) as (? & ? & _ & Hv & _).
  revert Hok. rewrite finish_run, Hres by done.
  destruct (resolveBranches_inv _ _ _ _ _ Hres)
    as (cfg & e0 & e1 & e2 & e3 & e4 & e5 & e6 & Htr & _ & Hcfg & _ & _ & _
        & Hprefix & _).
  unfold performed. rewrite !made_prepend.
  pose proof (resolveBranches_made k repo version w0) as Hpre.
  unfold made in Hpre at 1. rewrite !Hpre by done.
  cbn [orb].
  assert (Hfil : List.filter (λ e, is_tag (ev_call e))
                   (trace (resolveBranches k repo version w0)) = [])
    by (apply filter_none, Hpre; done).
  assert (Hin : e0 ∈ trace (resolveBranches k repo version w0))
    by (rewrite Htr; left).
  clear Hpre Hres Hv Htr.
  revert Hfil Hin.
  generalize (trace (resolveBranches k repo version w0)). intros tr1.
  generalize (final (resolveBranches k repo version w0)). intros w1.
  intros Hfil Hin. fold o.
  exec_finish (finishSteps repo version o t w1) o t.
  all: try (intros [=]; fail).
  all: intros _.
  all: rewrite List.filter_app, Hfil; cbn.
  all: match goal with
       | |- context [ {| ev_call := CallTagCreate ?a ?b ?c; ev_pre := ?p;
                         ev_result := ?res; ev_post := ?q |} :: ?rest ] =>
           eexists (tr1 ++ _),
             {| ev_call := CallTagCreate a b c; ev_pre := p;
                ev_result := res; ev_post := q |}, rest, a, cfg, e0
       end.
  all: split;
    [ rewrite <- app_assoc; f_equal; cbn;
      repeat first [apply suffix_here | apply suffix_step] |].
  all: split; [reflexivity|].
  all: split; [reflexivity|].
  all: split; [exact Hprefix|].
  all: split; [by apply elem_of_app; left|].
  all: split; [done|].
  all: split; [by eexists|].
  all: split; [cbn; assumption|].
  all: match goal with
       | |- Forall ?Q ?c ∧ _ =>
           assert (Hcl : Forall Q c)
             by (repeat (apply List.Forall_cons; [split; [reflexivity|answer]|]);
                 apply List.Forall_nil)
       end.
  all: split; [exact Hcl|].
  all: match goal with
       | |- ?C ∧ _ => assert (Hch : C) by (by cbn)
       end.
  all: split; [exact Hch|].
  all: split; [intros Hk; try discriminate Hk; reflexivity|].
  all: split; [intros P HP Hkp; exact (cleanup_preserves _ _ _ _ _ _ Hch Hcl Hkp HP)|].
  all: split; intros Hp; try discriminate Hp; try reflexivity.
  all: match goal with
       | |- context [ {| ev_call := CallMerge Master ?a ?b; ev_pre := ?p;
                         ev_result := inr ?m; ev_post := ?q |} ] =>
           match goal with
           | |- context [ {| ev_call := CallHook PostMasterMergeCallback ?args;
                             ev_pre := ?p'; ev_result := ?r'; ev_post := ?q' |} ] =>
               exists {| ev_call := CallMerge Master a b; ev_pre := p;
                         ev_result := inr m; ev_post := q |},
                      {| ev_call := CallHook PostMasterMergeCallback args;
                         ev_pre := p'; ev_result := r'; ev_post := q' |}, m
           end
       end.
  all: split; [in_trace|]; split; [in_trace|].
  all: split; [by unfold returned|]; split; [by unfold returned|].
  all: split; answer.
Qed.
End Result.

Lemma finish_result_is_develop_outcome_witness :
  ∃ t v,
    outcome (resolveBranches Hotfix Scenario.repo (Some "1.0")
               (MemGit.scenario "hotfix/1.0")) = inr t ∧
    outcome (finish Hotfix (Some Scenario.repo) (Some "1.0") None
               (MemGit.scenario "hotfix/1.0")) = inr v ∧
    let o := default no_options None in
    let r0 := resolveBranches Hotfix Scenario.repo (Some "1.0")
                (MemGit.scenario "hotfix/1.0") in
    let r := finish Hotfix (Some Scenario.repo) (Some "1.0") None
               (MemGit.scenario "hotfix/1.0") in
    let rd := developStep Scenario.repo o t (final r0) in
    outcome rd = inr v ∧
    (∃ rest, trace r = trace r0 ++ trace rd ++ rest) ∧
    performed Master rd = false ∧
    made is_tag rd = false ∧
    (performed Develop r = false →
       v = VUndefined ∧ invoked PostDevelopMergeCallback r = false) ∧
    (performed Develop r = true →
       ∃ e_m e_h m,
         e_m ∈ trace r ∧ e_h ∈ trace r ∧
         returned e_m (CallMerge Develop (developBranch t) (workflowBranch t)) m ∧
         returned e_h (CallHook PostDevelopMergeCallback [m]) v).
Proof.
  eexists _, _.
  split; [vm_compute; reflexivity|].
  split; [vm_compute; reflexivity|].
  eapply (finish_result_is_develop_outcome Hotfix Scenario.repo (Some "1.0") None
           (MemGit.scenario "hotfix/1.0")).
  - vm_compute; reflexivity.
  - vm_compute; reflexivity.
Defined.

(** ** The in-memory repository *)

Lemma MemGit_tagCreate_tags oid name msg repo w res w' :
  MemGit.tagCreate oid name msg repo w = (inr res, w') →
  MemGit.tags w' !! name = Some (oid, msg).
Proof.
  unfold MemGit.tagCreate.
  destruct (MemGit.tags w !! name); intros [= <- <-]. cbn.
  by rewrite lookup_insert_eq.
Qed.

Lemma MemGit_merge_result into from repo w res w' :
  MemGit.merge into from repo None None w = (inr res, w') →
  res = VOid (Oid_fromString
                ("merge(" ++ Oid_toString (target into) ++ ","
                 ++ Oid_toString (target from) ++ ")")).
Proof. unfold MemGit.merge. by intros [= <- _]. Qed.

Lemma MemGit_cleanup_keeps_tags repo (o : Options MemGit.Repository) name x :
  postCheckoutHook o = None →
  cleanup_keeps repo o (λ w, MemGit.tags w !! name = Some x).
Proof.
  intros Hh. unfold cleanup_keeps, keeps, hook_of. rewrite Hh.
  repeat split.
  - intros w Hw. cbn. unfold MemGit.head.
    by destruct (MemGit.branches w !! _).
  - intros b w Hw. cbn. unfold MemGit.checkoutBranch.
    destruct b as [[n|]|[n ?]]; try done;
      by destruct (MemGit.branches w !! _).
  - by intros args w Hw.
  - intros n w Hw. cbn. unfold MemGit.branchDelete.
    destruct (MemGit.branches w !! _); [|done]. by destruct (bool_decide _).
Qed.

Lemma finish_tags_once_witness :
  outcome (resolveBranches Release Scenario.repo (Some "1.0")
             (MemGit.scenario "release/1.0"))
  = inr (scenario_resolved "release/1.0") ∧
  outcome (finish Release (Some Scenario.repo) (Some "1.0")
             (Some Scenario.passing) (MemGit.scenario "release/1.0"))
  = inr (VOid (Oid_fromString "merge(D,H)")) ∧
  let r := finish Release (Some Scenario.repo) (Some "1.0")
             (Some Scenario.passing) (MemGit.scenario "release/1.0") in
  performed Master r = true ∧
  MemGit.tags (MemGit.scenario "release/1.0") !! "v1.0" = None ∧
  MemGit.tags (final r) !! "v1.0"
  = Some (VOid (Oid_fromString "merge(M,H)"), Some "release").
Proof.
  set (o := Scenario.passing).
  set (w0 := MemGit.scenario "release/1.0").
  set (t := scenario_resolved "release/1.0").
  assert (H1 : outcome (resolveBranches Release Scenario.repo (Some "1.0") w0)
               = inr t) by (vm_compute; reflexivity).
  assert (H2 : outcome (finish Release (Some Scenario.repo) (Some "1.0")
                          (Some o) w0)
               = inr (VOid (Oid_fromString "merge(D,H)")))
    by (vm_compute; reflexivity).
  split; [exact H1|]. split; [exact H2|]. intros r.
  assert (H3 : performed Master r = true) by (vm_compute; reflexivity).
  split; [exact H3|]. split; [reflexivity|].
  destruct (finish_tags_once Release Scenario.repo (Some "1.0") (Some o) w0 t _
              H1 H2)
    as (_ & pre & e & cleanup & oid & cfg & e0 & _ & _ & _ & _ & _ & _ & Hok
        & Htag & _ & _ & _ & HP & Hm & _).
  destruct (Hm H3)
    as (e_m & e_h & m & _ & _ & [Hcm Hrm] & [Hch Hrh] & Ham & Hah).
  unfold answered in Ham, Hah.
  rewrite Hcm, Hrm in Ham. rewrite Hch, Hrh in Hah.
  apply (MemGit_merge_result _ _ Scenario.repo) in Ham.
  injection Hah as Hoid _. cbn in Hoid.
  destruct Hok as [res Hres]. rewrite Hres in Htag.
  apply (MemGit_tagCreate_tags _ _ _ Scenario.repo) in Htag.
  apply (HP (λ w, MemGit.tags w !! "v1.0"
                  = Some (VOid (Oid_fromString "merge(M,H)"), Some "release"))).
  - refine (eq_trans Htag _). rewrite <- Hoid, Ham. reflexivity.
  - by apply (MemGit_cleanup_keeps_tags Scenario.repo).
Defined.

(** ** The order of the steps *)

Section Order.
Context {World Repo : Type} `{!Engine World Repo}.

(** C6.  When neither merge is cancelled, the calls [finish] makes after
    the decision are, in this order, [beforeMergeCallback] for develop, the
    develop merge, [postDevelopMergeCallback], [beforeMergeCallback] for
    master, the master merge, [postMasterMergeCallback], the tag and the
    calls of the cleanup.  Each call starts in the world the previous one
    left and only after it succeeded: the calls made are an initial segment
    of that list, and the whole list when the call resolves. *)
Theorem finish_order k repo version options w0 t :
  truthy version = true →
  outcome (resolveBranches k repo version w0) = inr t →
  cancelDevelopMerge (default no_options options) t = false →
  cancelMasterMerge t = false →
  let o := default no_options options in
  let r0 := resolveBranches k repo version w0 in
  let r := finish k (Some repo) version options w0 in
  ∃ tr2 m1 m2 oid cleanup,
    trace r = trace r0 ++ tr2 ∧
    chained (final r0) tr2 (final r) ∧
    fail_fast tr2 ∧
    map ev_call tr2 `prefix_of` finish_calls version o t m1 m2 oid ++ cleanup ∧
    Forall (λ c, is_cleanup c = true) cleanup ∧
    (∀ v, outcome r = inr v →
       map ev_call tr2 = finish_calls version o t m1 m2 oid ++ cleanup).
Proof.
  intros Hv Hres Hd Hm o r0 r. subst r r0.
  rewrite finish_run, Hres by done. clear Hres Hv.
  generalize (trace (resolveBranches k repo version w0)). intros tr1.
  generalize (final (resolveBranches k repo version w0)). intros w1.
  fold o in Hd |- *.
  exec_finish (finishSteps repo version o t w1) o t.
  all: try discriminate Hd; try discriminate Hm.
  all: eexists _, _, _, _, _.
  all: split; [reflexivity|].
  all: split; [by cbn|].
  all: split; [cbn; repeat split; by eexists|].
  all: unfold finish_calls.
  all: match goal with
       | |- _ ∧ Forall _ ?c ∧ _ =>
           first
             [ split; [exists []; cbn; reflexivity|]
             | unify c (@nil Call); split; [eexists; cbn; reflexivity|] ]
       end.
  all: split; [repeat constructor|].
  all: intros ? [=]; try reflexivity.
  Unshelve. all: exact VUndefined.
Qed.
End Order.

Lemma finish_order_witness :
  ∃ t,
    truthy (Some "1.0") = true ∧
    outcome (resolveBranches Hotfix Scenario.repo (Some "1.0")
               (MemGit.scenario "hotfix/1.0")) = inr t ∧
    cancelDevelopMerge
      (default no_options (None : option (Options MemGit.Repository))) t
    = false ∧
    cancelMasterMerge t = false ∧
    let o : Options MemGit.Repository := default no_options None in
    let r0 := resolveBranches Hotfix Scenario.repo (Some "1.0")
                (MemGit.scenario "hotfix/1.0") in
    let r := finish Hotfix (Some Scenario.repo) (Some "1.0") None
               (MemGit.scenario "hotfix/1.0") in
    ∃ tr2 m1 m2 oid cleanup,
      trace r = trace r0 ++ tr2 ∧
      chained (final r0) tr2 (final r) ∧
      fail_fast tr2 ∧
      map ev_call tr2
        `prefix_of` finish_calls (Some "1.0") o t m1 m2 oid ++ cleanup ∧
      Forall (λ c, is_cleanup c = true) cleanup ∧
      (∀ v, outcome r = inr v →
         map ev_call tr2 = finish_calls (Some "1.0") o t m1 m2 oid ++ cleanup).
Proof.
  eexists.
  split; [reflexivity|].
  split; [vm_compute; reflexivity|].
  split; [vm_compute; reflexivity|].
  split; [vm_compute; reflexivity|].
  eapply (finish_order Hotfix Scenario.repo (Some "1.0") None
            (MemGit.scenario "hotfix/1.0")).
  - reflexivity.
  - vm_compute; reflexivity.
  - vm_compute; reflexivity.
  - vm_compute; reflexivity.
Defined.

(** ** The cleanup *)

Section Cleanup.
Context {World Repo : Type} `{!Engine World Repo}.

Lemma keeps_eq {A} (P : World → Prop) (f : Eff World A) w r w' :
  keeps P f → f w = (r, w') → P w → P w'.
Proof. intros Hk E Hw. specialize (Hk w Hw). by rewrite E in Hk. Qed.

(** Follow a preserved property along the calls of an executed chain. *)
Ltac keep_steps :=
  repeat match goal with
         | E : ?f ?w = (_, ?w'), Hw : resolves ?repo ?n ?w |- _ =>
             assert (resolves repo n w')
               by (eapply (keeps_eq _ f); [solve [eauto] | exact E | exact Hw]);
             clear Hw
         end.

(** Once looked up, the workflow branch still resolves when the resolution
    ends, if the lookups and the commit reads leave it in place. *)
Lemma resolveBranches_resolves k repo version w0 t :
  outcome (resolveBranches k repo version w0) = inr t →
  (∀ n, keeps (resolves repo (workflowBranchName t)) (eng_branchLookup repo n)) →
  (∀ o, keeps (resolves repo (workflowBranchName t)) (eng_getCommit repo o)) →
  resolves repo (workflowBranchName t)
    (final (resolveBranches k repo version w0)).
Proof.
  unfold resolveBranches. unfold_api.
  rewrite then_run; run_simpl. exec_invoke; [done|].
  rewrite then_run; run_simpl. do 3 exec_invoke; try done.
  rewrite then_run; run_simpl. do 3 exec_invoke; try done.
  intros [= <-]; cbn. intros Hl Hc.
  match goal with
  | E : eng_branchLookup repo (Some ?n) ?w = (inr _, _) |- _ =>
      assert (resolves repo n w) by (by eexists _, _)
  end.
  keep_steps. done.
Qed.

(** C5.  After a successful [finish] without [keepBranch], the workflow
    branch was deleted, safely: the cleanup reads HEAD; if HEAD is on the
    workflow branch it first checks master out, reads HEAD again and calls
    [postCheckoutHook] with the old and new targets; the deletion is the last
    call, and the branch no longer resolves, deleting a branch being what
    makes its name unresolvable.  With [keepBranch] the branch still
    resolves, the lookups, the merges with the callbacks given, the tag and
    the callbacks of the call leaving it in place. *)
Theorem finish_cleanup k repo version options w0 t v :
  outcome (resolveBranches k repo version w0) = inr t →
  outcome (finish k (Some repo) version options w0) = inr v →
  let o := default no_options options in
  let name := workflowBranchName t in
  let r := finish k (Some repo) version options w0 in
  (truthy (keepBranch o) = false →
     (∃ pre e_head head checkout e_del,
        trace r = pre ++ [e_head] ++ checkout ++ [e_del] ∧
        returned e_head CallHead (VReference head) ∧
        returned e_del (CallBranchDelete name) VUndefined ∧
        final r = ev_post e_del ∧
        eng_branchDelete repo name (ev_pre e_del) = (inr (), ev_post e_del) ∧
        if bool_decide (ref_name head = name)
        then
          ∃ e_co e_head' head' e_hook hv,
            checkout = [e_co; e_head'; e_hook] ∧
            returned e_co (CallCheckoutBranch (ByName (masterBranchName t)))
              VUndefined ∧
            returned e_head' CallHead (VReference head') ∧
            returned e_hook
              (CallHook PostCheckoutHook
                 [VString (Oid_toString (target head));
                  VString (Oid_toString (target head'))]) hv
        else checkout = []) ∧
     (delete_removes repo name → ¬ resolves repo name (final r))) ∧
  (truthy (keepBranch o) = true →
     branch_untouched repo o name → resolves repo name (final r)).
Proof.
  intros Hres Hok o name r. subst r.
  destruct (finish_resolved_inv _ _ _ _ _ _ Hok) as (? & ? & _ & Hv & _).
  pose proof (resolveBranches_resolves _ _ _ _ _ Hres) as Hr0.
  revert Hok Hr0. rewrite finish_run, Hres by done. clear Hres Hv.
  generalize (trace (resolveBranches k repo version w0)). intros tr1.
  generalize (final (resolveBranches k repo version w0)). intros w1.
  fold o name.
  exec_finish (finishSteps repo version o t w1) o t.
  all: try (intros [=]; fail).
  all: intros _ Hr0.
  all: (split; intros Hk; [try discriminate Hk | try discriminate Hk]).
  (* [keepBranch]: the branch is left in place *)
  all: try (intros (Hl & Hc & Hm & Ht & Hb & Hpd & Hpm);
            specialize (Hr0 Hl Hc); keep_steps; done).
  (* the deletion *)
  all: split;
    [| intros Hdel;
       match goal with
       | E : eng_branchDelete _ _ _ = (inr ?u, _) |- _ =>
           destruct u; exact (Hdel _ _ E)
       end ].
  all: subst name.
  all: match goal with
       | Hb : @bool_decide (ref_name ?h = _) _ = _ |- context [ ?eh :: ?rest ] =>
           lazymatch eh with
           | {| ev_call := CallHead; ev_pre := _;
                ev_result := inr (VReference h); ev_post := _ |} => idtac
           end;
           lazymatch rest with
           | [?d] => eexists (tr1 ++ _), eh, h, [], d
           | [?a; ?b; ?c; ?d] => eexists (tr1 ++ _), eh, h, [a; b; c], d
           end;
           rewrite Hb
       end.
  all: split;
    [ rewrite <- app_assoc; f_equal; cbn;
      repeat first [apply suffix_here | apply suffix_step] |].
  all: split; [by unfold returned|].
  all: split; [by unfold returned|].
  all: split; [reflexivity|].
  all: split;
    [ cbn;
      match goal with
      | E : eng_branchDelete _ _ _ = (inr ?u, _) |- _ => destruct u; exact E
      end |].
  all: try reflexivity.
  all: eexists _, _, _, _, _; split; [reflexivity|]; by unfold returned.
Qed.
End Cleanup.


(** ** The cleanup on the in-memory repository *)

Lemma MemGit_resolves repo name w :
  resolves repo name w ↔ is_Some (MemGit.branches w !! name).
Proof.
  unfold resolves; cbn; unfold MemGit.branchLookup. split.
  - intros (b & w' & Hb). by destruct (MemGit.branches w !! name).
  - intros [o Ho]. rewrite Ho. by eexists _, _.
Qed.

Lemma MemGit_delete_removes repo name : delete_removes repo name.
Proof.
  intros w w'. cbn. unfold MemGit.branchDelete.
  destruct (MemGit.branches w !! name); [|done].
  destruct (bool_decide _); [done|]. intros [= <-].
  rewrite MemGit_resolves. cbn. rewrite lookup_delete_eq.
  by intros [? ?].
Qed.

Lemma MemGit_branch_untouched repo (o : Options MemGit.Repository) name :
  processMergeMessageCallback o = None →
  signingCallback o = None →
  beforeMergeCallback o = None →
  postDevelopMergeCallback o = None →
  postMasterMergeCallback o = None →
  branch_untouched repo o name.
Proof.
  intros Hp Hs Hb Hd Hm. unfold branch_untouched, keeps.
  rewrite Hp, Hs, Hb, Hd, Hm.
  repeat split; intros; rewrite MemGit_resolves in *; cbn.
  - unfold MemGit.branchLookup.
    destruct n as [n|]; [|exact H].
    destruct (MemGit.branches w !! n); exact H.
  - unfold MemGit.getCommit, MemGit.commitLookup.
    destruct (MemGit.objects w !! _); exact H.
  - apply lookup_insert_is_Some'. by right.
  - unfold MemGit.tagCreate. destruct (MemGit.tags w !! _); exact H.
  - exact H.
  - exact H.
  - exact H.
Qed.

Lemma finish_cleanup_witness :
  outcome (resolveBranches Hotfix Scenario.repo (Some "1.0")
             (MemGit.scenario "hotfix/1.0"))
  = inr (scenario_resolved "hotfix/1.0") ∧
  outcome (finish Hotfix (Some Scenario.repo) (Some "1.0") None
             (MemGit.scenario "hotfix/1.0")) = inr VUndefined ∧
  outcome (finish Hotfix (Some Scenario.repo) (Some "1.0")
             (Some Scenario.keep) (MemGit.scenario "hotfix/1.0"))
  = inr VUndefined ∧
  delete_removes Scenario.repo "hotfix/1.0" ∧
  branch_untouched Scenario.repo Scenario.keep "hotfix/1.0" ∧
  resolves Scenario.repo "hotfix/1.0" (MemGit.scenario "hotfix/1.0") ∧
  ¬ resolves Scenario.repo "hotfix/1.0"
      (final (finish Hotfix (Some Scenario.repo) (Some "1.0") None
                (MemGit.scenario "hotfix/1.0"))) ∧
  resolves Scenario.repo "hotfix/1.0"
    (final (finish Hotfix (Some Scenario.repo) (Some "1.0")
              (Some Scenario.keep) (MemGit.scenario "hotfix/1.0"))).
Proof.
  set (w0 := MemGit.scenario "hotfix/1.0").
  set (t := scenario_resolved "hotfix/1.0").
  assert (H1 : outcome (resolveBranches Hotfix Scenario.repo (Some "1.0") w0)
               = inr t) by (vm_compute; reflexivity).
  assert (H2 : outcome (finish Hotfix (Some Scenario.repo) (Some "1.0") None w0)
               = inr VUndefined) by (vm_compute; reflexivity).
  assert (H2' : outcome (finish Hotfix (Some Scenario.repo) (Some "1.0")
                           (Some Scenario.keep) w0)
                = inr VUndefined) by (vm_compute; reflexivity).
  assert (Hd : delete_removes Scenario.repo "hotfix/1.0")
    by apply MemGit_delete_removes.
  assert (Hb : branch_untouched Scenario.repo Scenario.keep "hotfix/1.0")
    by (by apply MemGit_branch_untouched).
  split; [exact H1|]. split; [exact H2|]. split; [exact H2'|].
  split; [exact Hd|]. split; [exact Hb|].
  split; [apply MemGit_resolves; vm_compute; by eexists|].
  split.
  - destruct (finish_cleanup Hotfix Scenario.repo (Some "1.0") None w0 t _
                H1 H2) as [Hdel _].
    destruct (Hdel eq_refl) as [_ Hgone].
    exact (Hgone Hd).
  - destruct (finish_cleanup Hotfix Scenario.repo (Some "1.0")
                (Some Scenario.keep) w0 t _ H1 H2') as [_ Hkept].
    exact (Hkept eq_refl Hb).
Defined.

(** ** Starting a workflow *)

Section Start.
Context {World Repo : Type} `{!Engine World Repo}.

(** C4, as amended.  A successful [start] reads the configuration, resolves
    the starting commit, creates the branch named by the workflow prefix
    followed by the version at that commit, checks it out, calls
    [postCheckoutHook] with the old and new HEAD targets and returns the
    branch.  The starting commit is the [sha] option for a release that was
    given one; otherwise it is the target of the base branch: develop for a
    release, master for a hotfix, whose [sha] option is ignored. *)
Theorem start_creates_branch k repo version options w0 b :
  outcome (start k (Some repo) version options w0) = inr b →
  let o := default no_options options in
  let r := start k (Some repo) version options w0 in
  ∃ cfg commit e_cfg lookups e_create e_head e_co e_head' e_hook old new hv,
    trace r = e_cfg :: lookups ++ [e_create; e_head; e_co; e_head'; e_hook] ∧
    returned e_cfg CallGetConfig (VConfig cfg) ∧
    (if starts_from_sha k o
     then
       ∃ e, lookups = [e] ∧
            returned e (CallCommitLookup (BySha (js_text (sha o))))
              (VCommit commit)
     else
       ∃ e1 e2 base,
         lookups = [e1; e2] ∧
         returned e1 (CallBranchLookup (cfg !! baseKey k)) (VReference base) ∧
         returned e2 (CallCommitLookup (ByOid (target base))) (VCommit commit)) ∧
    returned e_create
      (CallCreateBranch (js_concat (cfg !! prefixKey k) version) commit)
      (VReference b) ∧
    returned e_head CallHead (VReference old) ∧
    returned e_co (CallCheckoutBranch (ByReference b)) VUndefined ∧
    returned e_head' CallHead (VReference new) ∧
    returned e_hook
      (CallHook PostCheckoutHook
         [VString (Oid_toString (target old));
          VString (Oid_toString (target new))]) hv.
Proof.
  intros Hok o r. subst r. revert Hok.
  destruct (truthy version) eqn:Hv.
  2: { destruct k; unfold start, startRelease, startHotfix; by rewrite Hv. }
  destruct k; unfold start, startRelease, startHotfix, starts_from_sha;
    rewrite Hv; cbn [negb]; fold o.
  - exec_at w0.
    all: intros ->; cbn.
    all: try (intros [=]; fail).
    all: intros [= <-].
    + eexists _, _, _, [_], _, _, _, _, _, _, _, _.
      split; [reflexivity|]. unfold returned; cbn.
      repeat match goal with |- _ ∧ _ => split end; try done.
      by eexists.
    + eexists _, _, _, [_; _], _, _, _, _, _, _, _, _.
      split; [reflexivity|]. unfold returned; cbn.
      repeat match goal with |- _ ∧ _ => split end; try done.
      by eexists _, _, _.
  - exec_at w0.
    all: intros ->; cbn.
    all: try (intros [=]; fail).
    all: intros [= <-].
    eexists _, _, _, [_; _], _, _, _, _, _, _, _, _.
    split; [reflexivity|]. unfold returned; cbn.
    repeat match goal with |- _ ∧ _ => split end; try done.
    by eexists _, _, _.
Qed.

(** C10.  When [postCheckoutHook] rejects or throws, [start] fails with
    that error.  The branch was created and checked out before, the hook is
    the last call, and [start] deletes nothing: the repository is left as it
    was when the hook failed. *)
Theorem start_fails_with_hook_error k repo version options w0 err :
  rejection PostCheckoutHook (start k repo version options w0) = Some err →
  let r := start k repo version options w0 in
  outcome r = inl err ∧
  made is_delete r = false ∧
  ∃ pre name commit b e_create e_head e_co e_head' e_hook,
    trace r = pre ++ [e_create; e_head; e_co; e_head'; e_hook] ∧
    returned e_create (CallCreateBranch name commit) (VReference b) ∧
    ok e_head ∧
    returned e_co (CallCheckoutBranch (ByReference b)) VUndefined ∧
    ok e_head' ∧
    is_hook PostCheckoutHook (ev_call e_hook) = true ∧
    ev_result e_hook = inl err ∧
    final r = ev_post e_hook.
Proof.
  intros Hrej r. subst r. revert Hrej. unfold rejection.
  destruct repo as [repo|]; [|by destruct k].
  destruct (truthy version) eqn:Hv.
  2: { destruct k; unfold start, startRelease, startHotfix; by rewrite Hv. }
  destruct k; unfold start, startRelease, startHotfix;
    rewrite Hv; cbn [negb].
  all: exec_at w0.
  all: intros ->; cbn.
  all: try (intros [=]; fail).
  all: intros [= <-].
  all: split; [done|]; split; [done|].
  all: eexists _, _, _, _, _, _, _, _, _.
  all: split; [repeat first [apply suffix_here | apply suffix_step]|].
  all: unfold returned, ok; cbn.
  all: repeat match goal with |- _ ∧ _ => split end; try done.
  all: by eexists.
Qed.

(** C7, as amended.  Without a repository [start] and [finish] fail with
    the repository error; with a repository and without a version they fail
    with the version error; in both cases before any call is made. *)
Theorem missing_input_guards k (repo : Repo) version options w0 :
  (∃ e, MissingRepository e ∧
        start k None version options w0
        = {| trace := []; final := w0; outcome := inl e |}) ∧
  (∃ e, MissingRepository e ∧
        finish k None version options w0
        = {| trace := []; final := w0; outcome := inl e |}) ∧
  (truthy version = false →
     (∃ e, MissingVersion e ∧
           start k (Some repo) version options w0
           = {| trace := []; final := w0; outcome := inl e |}) ∧
     (∃ e, MissingVersion e ∧
           finish k (Some repo) version options w0
           = {| trace := []; final := w0; outcome := inl e |})).
Proof.
  unfold MissingRepository, MissingVersion.
  split; [destruct k; eexists; split; try reflexivity; auto|].
  split; [destruct k; eexists; split; try reflexivity; auto|].
  intros Hv.
  destruct k;
    unfold start, finish, startRelease, startHotfix, finishRelease,
      finishHotfix; rewrite Hv; cbn [negb];
    split; eexists; split; try reflexivity; auto.
Qed.

(** C8, as amended.  [finish] gives [beforeMergeCallback],
    [postDevelopMergeCallback], [postMasterMergeCallback] and
    [postCheckoutHook] the default [() => {}]: omitting them is passing
    no-ops, and omitting the options is passing none.
    [processMergeMessageCallback] and [signingCallback] get no default:
    every merge that [finish] calls is [utils.Repo.merge] run with these two
    callbacks as the caller gave them, [undefined] when omitted. *)
Theorem finish_default_hooks k repo version (o : Options World) w0 :
  finish k repo version (Some (with_default_hooks o)) w0
  = finish k repo version (Some o) w0 ∧
  finish k repo version None w0 = finish k repo version (Some no_options) w0 ∧
  (∀ repo' e tg into from,
     repo = Some repo' →
     e ∈ trace (finish k repo version (Some o) w0) →
     ev_call e = CallMerge tg into from →
     eng_merge into from repo' (processMergeMessageCallback o)
       (signingCallback o) (ev_pre e)
     = (ev_result e, ev_post e)).
Proof.
  split; [by destruct k|]. split; [by destruct k|].
  intros repo' e tg into from -> He Hcall.
  pose proof (finish_answered k repo' version (Some o) w0) as Hall.
  rewrite List.Forall_forall in Hall.
  apply list_elem_of_In, Hall in He.
  unfold answered in He. by rewrite Hcall in He.
Qed.
End Start.

(** ** The claims on the in-memory repository *)

(** C4 fails as it is written: a hotfix started with the [sha] option D
    never looks D up. *)
Lemma hotfix_start_ignores_sha :
  ¬ sha_is_looked_up Hotfix Scenario.repo (Some "2.0") Scenario.from_D
      (MemGit.scenario "hotfix/1.0").
Proof.
  intros H.
  specialize (H "D" _ eq_refl ltac:(done) ltac:(vm_compute; reflexivity)).
  vm_compute in H. discriminate H.
Qed.

Lemma start_creates_branch_witness :
  ∃ b,
    outcome (start Release (Some Scenario.repo) (Some "2.0")
               (Some Scenario.from_D) (MemGit.scenario "hotfix/1.0")) = inr b ∧
    let o := default no_options (Some Scenario.from_D) in
    let r := start Release (Some Scenario.repo) (Some "2.0")
               (Some Scenario.from_D) (MemGit.scenario "hotfix/1.0") in
    ∃ cfg commit e_cfg lookups e_create e_head e_co e_head' e_hook old new hv,
      trace r = e_cfg :: lookups ++ [e_create; e_head; e_co; e_head'; e_hook] ∧
      returned e_cfg CallGetConfig (VConfig cfg) ∧
      (if starts_from_sha Release o
       then
         ∃ e, lookups = [e] ∧
              returned e (CallCommitLookup (BySha (js_text (sha o))))
                (VCommit commit)
       else
         ∃ e1 e2 base,
           lookups = [e1; e2] ∧
           returned e1 (CallBranchLookup (cfg !! baseKey Release))
             (VReference base) ∧
           returned e2 (CallCommitLookup (ByOid (target base))) (VCommit commit)) ∧
      returned e_create
        (CallCreateBranch (js_concat (cfg !! prefixKey Release) (Some "2.0")) commit)
        (VReference b) ∧
      returned e_head CallHead (VReference old) ∧
      returned e_co (CallCheckoutBranch (ByReference b)) VUndefined ∧
      returned e_head' CallHead (VReference new) ∧
      returned e_hook
        (CallHook PostCheckoutHook
           [VString (Oid_toString (target old));
            VString (Oid_toString (target new))]) hv.
Proof.
  eexists. split; [vm_compute; reflexivity|].
  eapply (start_creates_branch Release Scenario.repo (Some "2.0")
            (Some Scenario.from_D) (MemGit.scenario "hotfix/1.0")).
  vm_compute; reflexivity.
Defined.

Lemma start_fails_with_hook_error_witness :
  ∃ err,
    rejection PostCheckoutHook
      (start Hotfix (Some Scenario.repo) (Some "2.0")
         (Some Scenario.postCheckout_throws) (MemGit.scenario "hotfix/1.0"))
    = Some err ∧
    let r := start Hotfix (Some Scenario.repo) (Some "2.0")
               (Some Scenario.postCheckout_throws)
               (MemGit.scenario "hotfix/1.0") in
    outcome r = inl err ∧
    made is_delete r = false ∧
    ∃ pre name commit b e_create e_head e_co e_head' e_hook,
      trace r = pre ++ [e_create; e_head; e_co; e_head'; e_hook] ∧
      returned e_create (CallCreateBranch name commit) (VReference b) ∧
      ok e_head ∧
      returned e_co (CallCheckoutBranch (ByReference b)) VUndefined ∧
      ok e_head' ∧
      is_hook PostCheckoutHook (ev_call e_hook) = true ∧
      ev_result e_hook = inl err ∧
      final r = ev_post e_hook.
Proof.
  eexists. split; [vm_compute; reflexivity|].
  eapply (start_fails_with_hook_error Hotfix (Some Scenario.repo) (Some "2.0")
            (Some Scenario.postCheckout_throws) (MemGit.scenario "hotfix/1.0")).
  vm_compute; reflexivity.
Defined.

(** C7 fails as it is written: without a repository and without a version,
    the call fails with the repository error, not with the version error. *)
Lemma repository_guard_comes_first :
  ¬ version_guard_alone Release (None : option string) (Some "") None
      (MemGit.scenario "release/1.0").
Proof.
  intros H. destruct (H eq_refl) as [_ (e & He & Hrun)].
  injection Hrun as <-.
  destruct He as [He|[He|[He|He]]]; discriminate He.
Qed.

Lemma missing_input_guards_witness :
  truthy (None : option string) = false ∧
  (∃ e, MissingRepository e ∧
        start Release None None None (MemGit.scenario "release/1.0")
        = {| trace := []; final := MemGit.scenario "release/1.0";
             outcome := inl e |}) ∧
  (∃ e, MissingRepository e ∧
        finish Release None None None (MemGit.scenario "release/1.0")
        = {| trace := []; final := MemGit.scenario "release/1.0";
             outcome := inl e |}) ∧
  (truthy (None : option string) = false →
     (∃ e, MissingVersion e ∧
           start Release (Some Scenario.repo) None None
             (MemGit.scenario "release/1.0")
           = {| trace := []; final := MemGit.scenario "release/1.0";
                outcome := inl e |}) ∧
     (∃ e, MissingVersion e ∧
           finish Release (Some Scenario.repo) None None
             (MemGit.scenario "release/1.0")
           = {| trace := []; final := MemGit.scenario "release/1.0";
                outcome := inl e |})).
Proof.
  split; [reflexivity|].
  apply (missing_input_guards Release Scenario.repo None None
           (MemGit.scenario "release/1.0")).
Defined.

(** C8 fails as it is written: with [processMergeMessageCallback] omitted
    the merge commit carries the generated message, with a no-op it carries
    [undefined]. *)
Lemma omitted_message_callback_is_not_a_noop :
  ¬ omitted_hooks_are_noops Hotfix (Some Scenario.repo) (Some "1.0")
      no_options (MemGit.scenario "hotfix/1.0").
Proof.
  intros H.
  apply (f_equal (λ r, MemGit.commit_message
                         <$> MemGit.objects (final r) !! "merge(D,H)")) in H.
  vm_compute in H. discriminate H.
Qed.

Lemma finish_default_hooks_witness :
  finish Hotfix (Some Scenario.repo) (Some "1.0")
    (Some (with_default_hooks Scenario.signing)) (MemGit.scenario "hotfix/1.0")
  = finish Hotfix (Some Scenario.repo) (Some "1.0") (Some Scenario.signing)
      (MemGit.scenario "hotfix/1.0") ∧
  ∃ e tg into from,
    e ∈ trace (finish Hotfix (Some Scenario.repo) (Some "1.0")
                 (Some Scenario.signing) (MemGit.scenario "hotfix/1.0")) ∧
    ev_call e = CallMerge tg into from ∧
    MemGit.merge into from Scenario.repo
      (processMergeMessageCallback Scenario.signing)
      (signingCallback Scenario.signing) (ev_pre e)
    = (ev_result e, ev_post e).
Proof.
  set (o := Scenario.signing).
  set (r := finish Hotfix (Some Scenario.repo) (Some "1.0") (Some o)
              (MemGit.scenario "hotfix/1.0")).
  destruct (finish_default_hooks Hotfix (Some Scenario.repo) (Some "1.0") o
              (MemGit.scenario "hotfix/1.0")) as (Hd & _ & Hm).
  split; [exact Hd|].
  assert (Hp : performed Develop r = true) by (vm_compute; reflexivity).
  apply existsb_exists in Hp as (e & He & Hc).
  apply list_elem_of_In in He.
  destruct (ev_call e) as [| | | | | | |tg into from| | |] eqn:Hcall;
    try discriminate Hc.
  exists e, tg, into, from.
  split; [exact He|]. split; [exact Hcall|].
  exact (Hm Scenario.repo e tg into from eq_refl He Hcall).
Defined.

(** * Further properties of the workflows *)

(** Execute a whole call of [start], from the guards on. *)
Ltac exec_whole_start k w0 :=
  destruct k; unfold start, startRelease, startHotfix;
  match goal with
  | Hv : truthy _ = true |- _ => rewrite ?Hv
  end;
  cbn [negb]; exec_at w0; intros ->; cbn.

Section Never.
Context {World Repo : Type} `{!Engine World Repo}.

Lemma count_prepend {A} P tr (r : Run World A) :
  count P (prepend tr r)
  = length (List.filter (λ e, P (ev_call e)) tr) + count P r.
Proof. unfold count; cbn. by rewrite List.filter_app, length_app. Qed.

Lemma succeeded_prepend {A} P tr (r : Run World A) :
  succeeded P (prepend tr r)
  = existsb (λ e, P (ev_call e) && succeeded_event e) tr || succeeded P r.
Proof. unfold succeeded; cbn. by rewrite existsb_app. Qed.

(** The resolution starts by reading the configuration, and reads it once. *)
Lemma resolveBranches_head k repo version w0 :
  ∃ e rest,
    trace (resolveBranches k repo version w0) = e :: rest ∧
    ev_call e = CallGetConfig ∧ ev_pre e = w0 ∧
    List.filter (λ e, is_getConfig (ev_call e)) rest = [].
Proof.
  remember (resolveBranches k repo version w0) as r eqn:Hr. revert Hr.
  unfold resolveBranches. unfold_api.
  rewrite then_run; run_simpl. exec_invoke.
  { intros ->. by eexists _, _. }
  rewrite then_run; run_simpl. do 3 exec_invoke.
  all: try (intros ->; by eexists _, _).
  rewrite then_run; run_simpl. do 3 exec_invoke.
  all: intros ->; by eexists _, _.
Qed.

(** [start] never merges, tags or deletes, and [finish] never creates a
    branch nor looks a commit up by sha or oid, however the call ends. *)
Theorem start_and_finish_keep_to_their_calls k repo version options w0 :
  made (λ c, is_merge Develop c || is_merge Master c || is_tag c || is_delete c)
    (start k repo version options w0) = false ∧
  made (λ c, is_create c || is_commit_lookup c)
    (finish k repo version options w0) = false.
Proof.
  destruct repo as [repo|]; [|by destruct k].
  destruct (truthy version) eqn:Hv.
  2: { destruct k;
       unfold start, finish, startRelease, startHotfix, finishRelease,
         finishHotfix; by rewrite Hv. }
  split.
  - exec_whole_start k w0; reflexivity.
  - rewrite finish_steps by done.
    rewrite (made_then _ (resolveBranches k repo version)).
    rewrite resolveBranches_made by done. cbn [orb].
    destruct (resolveBranches k repo version w0) as [tr1 w1 [e|t]];
      cbn [outcome final]; [done|].
    exec_finish (finishSteps repo version (default no_options options) t w1)
      (default no_options options) t.
    all: reflexivity.
Qed.

(** The configuration is read exactly once per call, by the first call made
    and in the world the operation was started in. *)
Theorem config_is_read_once k repo version options w0 :
  truthy version = true →
  let rs := start k (Some repo) version options w0 in
  let rf := finish k (Some repo) version options w0 in
  (count is_getConfig rs = 1 ∧
   ∃ e rest, trace rs = e :: rest ∧ ev_call e = CallGetConfig ∧ ev_pre e = w0) ∧
  (count is_getConfig rf = 1 ∧
   ∃ e rest, trace rf = e :: rest ∧ ev_call e = CallGetConfig ∧ ev_pre e = w0).
Proof.
  intros Hv rs rf. subst rs rf. split.
  - exec_whole_start k w0.
    all: split; [reflexivity|]; by eexists _, _.
  - rewrite finish_run by done.
    destruct (resolveBranches_head k repo version w0)
      as (e & rest & Htr & Hcall & Hpre & Hrest).
    assert (Hone : count is_getConfig (resolveBranches k repo version w0) = 1)
      by (unfold count; rewrite Htr; cbn; by rewrite Hcall, Hrest).
    assert (Hnone : length (List.filter (λ e, is_getConfig (ev_call e))
                              (trace (resolveBranches k repo version w0))) = 1)
      by exact Hone.
    destruct (outcome (resolveBranches k repo version w0)) as [err|t].
    { split; [exact Hone|]. cbn. by eexists _, _. }
    rewrite count_prepend, Hnone. cbn [trace prepend]. rewrite Htr.
    split; [|by eexists _, _].
    generalize (final (resolveBranches k repo version w0)). intros w1.
    exec_finish (finishSteps repo version (default no_options options) t w1)
      (default no_options options) t.
    all: reflexivity.
Qed.
End Never.

Lemma config_is_read_once_witness :
  truthy (Some "1.0") = true ∧
  let rs := start Release (Some Scenario.repo) (Some "1.0") None
              (MemGit.scenario "hotfix/1.0") in
  let rf := finish Release (Some Scenario.repo) (Some "1.0") None
              (MemGit.scenario "hotfix/1.0") in
  (count is_getConfig rs = 1 ∧
   ∃ e rest, trace rs = e :: rest ∧ ev_call e = CallGetConfig ∧
             ev_pre e = MemGit.scenario "hotfix/1.0") ∧
  (count is_getConfig rf = 1 ∧
   ∃ e rest, trace rf = e :: rest ∧ ev_call e = CallGetConfig ∧
             ev_pre e = MemGit.scenario "hotfix/1.0").
Proof.
  split; [reflexivity|].
  apply (config_is_read_once Release Scenario.repo (Some "1.0") None
           (MemGit.scenario "hotfix/1.0")).
  reflexivity.
Defined.

(** ** What the options and the workflow change *)

Section Options.
Context {World Repo : Type} `{!Engine World Repo}.

(** Of its options [start] reads [postCheckoutHook] and, for a release,
    [sha]; [finish] does not read [sha]. *)
Theorem options_read k repo version (o o' : Options World) s w0 :
  postCheckoutHook o = postCheckoutHook o' →
  (k = Release → sha o = sha o') →
  start k repo version (Some o) w0 = start k repo version (Some o') w0 ∧
  finish k repo version (Some (with_sha s o)) w0
  = finish k repo version (Some o) w0.
Proof.
  intros Hh Hs. split; [|by destruct k].
  destruct k; unfold start, startRelease, startHotfix;
    cbv beta zeta delta [default from_option id]; cbv beta iota.
  - by rewrite Hh, Hs.
  - by rewrite Hh.
Qed.

(** The two [finish] functions differ by the prefix they read and by the
    message of the version guard only: when the configuration gives both
    prefixes the same value, a call with a version behaves the same for a
    release and for a hotfix. *)
Theorem finishRelease_finishHotfix_agree repo version options w0 cfg :
  truthy version = true →
  (eng_getConfig repo w0).1 = inr cfg →
  cfg !! "gitflow.prefix.release" = cfg !! "gitflow.prefix.hotfix" →
  finishRelease (Some repo) version options w0
  = finishHotfix (Some repo) version options w0.
Proof.
  intros Hv Hcfg Heq.
  change (finish Release (Some repo) version options w0
          = finish Hotfix (Some repo) version options w0).
  rewrite !finish_steps by done.
  rewrite (then_run (resolveBranches Release repo version)).
  rewrite (then_run (resolveBranches Hotfix repo version)).
  cut (resolveBranches Release repo version w0
       = resolveBranches Hotfix repo version w0); [by intros ->|].
  unfold resolveBranches. rewrite !(then_run (Config.getConfig repo)).
  unfold Config.getConfig.
  destruct (eng_getConfig repo w0) as [[e|cfg'] w1] eqn:E; cbn in Hcfg; [done|].
  injection Hcfg as ->.
  rewrite !(invoke_eq _ _ _ _ _ _ E); cbn [outcome trace final prefixKey].
  by rewrite Heq.
Qed.

End Options.

Lemma options_read_witness :
  postCheckoutHook Scenario.from_D = postCheckoutHook Scenario.keep ∧
  (Hotfix = Release → sha Scenario.from_D = sha Scenario.keep) ∧
  start Hotfix (Some Scenario.repo) (Some "2.0") (Some Scenario.from_D)
    (MemGit.scenario "hotfix/1.0")
  = start Hotfix (Some Scenario.repo) (Some "2.0") (Some Scenario.keep)
      (MemGit.scenario "hotfix/1.0") ∧
  finish Hotfix (Some Scenario.repo) (Some "2.0")
    (Some (with_sha (Some "M") Scenario.from_D)) (MemGit.scenario "hotfix/1.0")
  = finish Hotfix (Some Scenario.repo) (Some "2.0") (Some Scenario.from_D)
      (MemGit.scenario "hotfix/1.0").
Proof.
  split; [reflexivity|]. split; [discriminate|].
  apply (options_read Hotfix (Some Scenario.repo) (Some "2.0")
           Scenario.from_D Scenario.keep (Some "M")
           (MemGit.scenario "hotfix/1.0")).
  - reflexivity.
  - discriminate.
Defined.

Lemma finishRelease_finishHotfix_agree_witness :
  truthy (Some "1.0") = true ∧
  (eng_getConfig Scenario.repo (bare_scenario "undefined1.0")).1
  = inr bare_config ∧
  bare_config !! "gitflow.prefix.release" = bare_config !! "gitflow.prefix.hotfix" ∧
  finishRelease (Some Scenario.repo) (Some "1.0") None
    (bare_scenario "undefined1.0")
  = finishHotfix (Some Scenario.repo) (Some "1.0") None
      (bare_scenario "undefined1.0").
Proof.
  split; [reflexivity|]. split; [reflexivity|].
  split; [vm_compute; reflexivity|].
  apply (finishRelease_finishHotfix_agree Scenario.repo (Some "1.0") None
           (bare_scenario "undefined1.0") bare_config).
  - reflexivity.
  - reflexivity.
  - vm_compute; reflexivity.
Defined.

(** ** The order and the failures of [start] *)

Section StartOrder.
Context {World Repo : Type} `{!Engine World Repo}.

(** The calls of [start] are an initial segment of: configuration, lookup of
    the starting commit, creation of the branch at the commit the lookup
    returned, HEAD, checkout of the branch the creation returned, HEAD,
    [postCheckoutHook] on the targets the two readings of HEAD returned,
    the old one first.  Each call is recorded with what it did, starts in
    the world the previous one left and only after it succeeded.  When
    [start] resolves all of them were made and the value is the branch the
    creation returned. *)
Theorem start_order k repo version options w0 :
  truthy version = true →
  let o := default no_options options in
  let r := start k (Some repo) version options w0 in
  chained w0 (trace r) (final r) ∧
  fail_fast (trace r) ∧
  Forall (answered repo o) (trace r) ∧
  ∃ cfg base commit b old new,
    map ev_call (trace r)
      `prefix_of` start_calls k version o cfg base commit b old new ∧
    answers (trace r) (start_results k o cfg base commit b old new) ∧
    (∀ x, outcome r = inr x →
       x = b ∧
       map ev_call (trace r) = start_calls k version o cfg base commit b old new).
Proof.
  intros Hv o r. subst o r. unfold start_calls, start_results, starts_from_sha.
  exec_whole_start k w0.
  all: try match goal with
           | H : truthy (sha _) = _ |- _ => rewrite H
           end.
  all: split; [done|].
  all: split; [cbn; repeat split; by eexists|].
  all: split; [answer_all|].
  all: eexists _, _, _, _, _, _.
  all: split; [eexists; cbn; reflexivity|].
  all: split; [cbn; repeat match goal with |- _ ∧ _ => split end; done|].
  all: intros ? [= <-]; split; reflexivity.
  Unshelve.
  all: first [ exact (∅ : gmap string string)
             | exact {| ref_name := ""; target := {| Oid_toString := "" |} |}
             | exact {| commit_id := {| Oid_toString := "" |} |} ].
Qed.

(** When [start] fails after its guards, the error is that of the last call
    made: the failed call stops the chain and its error is passed on
    unchanged. *)
Theorem start_error_is_last_call_error k repo version options w0 err :
  truthy version = true →
  outcome (start k (Some repo) version options w0) = inl err →
  ∃ e, last (trace (start k (Some repo) version options w0)) = Some e ∧
       ev_result e = inl err ∧
       final (start k (Some repo) version options w0) = ev_post e.
Proof.
  intros Hv. exec_whole_start k w0.
  all: try (intros [=]; fail).
  all: intros [= <-]; by eexists.
Qed.

(** With no prefix in the configuration the branch that [start] creates is
    named ["undefined"] followed by the version. *)
Theorem start_without_prefix k repo version options w0 cfg b :
  (eng_getConfig repo w0).1 = inr cfg →
  cfg !! prefixKey k = None →
  outcome (start k (Some repo) version options w0) = inr b →
  ∃ e commit,
    e ∈ trace (start k (Some repo) version options w0) ∧
    returned e (CallCreateBranch ("undefined" ++ js_text version) commit)
      (VReference b).
Proof.
  intros Hcfg Hnone. revert Hcfg.
  destruct (truthy version) eqn:Hv.
  2: { destruct k; unfold start, startRelease, startHotfix; by rewrite Hv. }
  exec_whole_start k w0.
  all: try (intros _ [=]; fail).
  all: intros [= ->] [= <-]; cbn [prefixKey] in Hnone; rewrite Hnone.
  all: match goal with
       | |- context [ {| ev_call := CallCreateBranch ?n ?c; ev_pre := ?p;
                         ev_result := ?r; ev_post := ?q |} ] =>
           exists {| ev_call := CallCreateBranch n c; ev_pre := p;
                     ev_result := r; ev_post := q |}, c
       end.
  all: split; [in_trace | by unfold returned].
Qed.
End StartOrder.

Lemma start_order_witness :
  truthy (Some "2.0") = true ∧
  let o : Options MemGit.Repository := default no_options None in
  let r := start Hotfix (Some Scenario.repo) (Some "2.0") None
             (MemGit.scenario "hotfix/1.0") in
  chained (MemGit.scenario "hotfix/1.0") (trace r) (final r) ∧
  fail_fast (trace r) ∧
  Forall (answered Scenario.repo o) (trace r) ∧
  ∃ cfg base commit b old new,
    map ev_call (trace r)
      `prefix_of` start_calls Hotfix (Some "2.0") o cfg base commit b old new ∧
    answers (trace r) (start_results Hotfix o cfg base commit b old new) ∧
    (∀ x, outcome r = inr x →
       x = b ∧
       map ev_call (trace r)
       = start_calls Hotfix (Some "2.0") o cfg base commit b old new).
Proof.
  split; [reflexivity|].
  apply (start_order Hotfix Scenario.repo (Some "2.0") None
           (MemGit.scenario "hotfix/1.0")).
  reflexivity.
Defined.

Lemma start_error_is_last_call_error_witness :
  ∃ err,
    truthy (Some "1.0") = true ∧
    outcome (start Hotfix (Some Scenario.repo) (Some "1.0") None
               (MemGit.scenario "hotfix/1.0")) = inl err ∧
    ∃ e, last (trace (start Hotfix (Some Scenario.repo) (Some "1.0") None
                        (MemGit.scenario "hotfix/1.0"))) = Some e ∧
         ev_result e = inl err ∧
         final (start Hotfix (Some Scenario.repo) (Some "1.0") None
                  (MemGit.scenario "hotfix/1.0")) = ev_post e.
Proof.
  eexists. split; [reflexivity|]. split; [vm_compute; reflexivity|].
  eapply (start_error_is_last_call_error Hotfix Scenario.repo (Some "1.0") None
            (MemGit.scenario "hotfix/1.0")).
  - reflexivity.
  - vm_compute; reflexivity.
Defined.

Lemma start_without_prefix_witness :
  ∃ b,
    (eng_getConfig Scenario.repo (bare_scenario "hotfix/1.0")).1
    = inr bare_config ∧
    bare_config !! prefixKey Release = None ∧
    outcome (start Release (Some Scenario.repo) (Some "2.0") None
               (bare_scenario "hotfix/1.0")) = inr b ∧
    ∃ e commit,
      e ∈ trace (start Release (Some Scenario.repo) (Some "2.0") None
                   (bare_scenario "hotfix/1.0")) ∧
      returned e (CallCreateBranch ("undefined" ++ js_text (Some "2.0")) commit)
        (VReference b).
Proof.
  eexists. split; [reflexivity|]. split; [vm_compute; reflexivity|].
  split; [vm_compute; reflexivity|].
  eapply (start_without_prefix Release Scenario.repo (Some "2.0") None
            (bare_scenario "hotfix/1.0") bare_config).
  - reflexivity.
  - vm_compute; reflexivity.
  - vm_compute; reflexivity.
Defined.

(** ** The failures of [finish] *)

Section FinishFailures.
Context {World Repo : Type} `{!Engine World Repo}.

Lemma first_rejection_app P (tr1 tr2 : list (Event World)) :
  first_rejection P (tr1 ++ tr2) =
  match first_rejection P tr1 with
  | Some e => Some e
  | None => first_rejection P tr2
  end.
Proof.
  induction tr1 as [|e tr1 IH]; cbn; [done|].
  destruct (ev_result e); [destruct (P (ev_call e))|]; done.
Qed.

Lemma first_rejection_none P (tr : list (Event World)) :
  existsb (λ e, P (ev_call e)) tr = false → first_rejection P tr = None.
Proof.
  induction tr as [|e tr IH]; cbn; [done|].
  intros [-> Htr]%orb_false_iff. destruct (ev_result e); auto.
Qed.

Lemma last_app_cons {A} (l : list A) x l' : last (l ++ x :: l') = last (x :: l').
Proof.
  induction l as [|y l IH]; [done|]. cbn.
  destruct (l ++ x :: l') eqn:E; [by destruct l|]. by rewrite <- IH.
Qed.

(** The steps make none of the calls of the resolution or of [start]. *)
Lemma finishSteps_made repo version (o : Options World) t w1 P :
  (∀ c, is_step_call c = true → P c = false) →
  made P (finishSteps repo version o t w1) = false.
Proof.
  intros HP.
  exec_finish (finishSteps repo version o t w1) o t.
  all: unfold made; cbn.
  all: rewrite ?HP by done; reflexivity.
Qed.

(** A failure of the steps is the failure of their last call. *)
Lemma finishSteps_error repo version (o : Options World) t w1 err :
  outcome (finishSteps repo version o t w1) = inl err →
  ∃ e, last (trace (finishSteps repo version o t w1)) = Some e ∧
       ev_result e = inl err ∧
       final (finishSteps repo version o t w1) = ev_post e.
Proof.
  exec_finish (finishSteps repo version o t w1) o t.
  all: try (intros [=]; fail).
  all: intros [= <-]; by eexists.
Qed.

(** A failure of the resolution is the failure of one of its calls. *)
Lemma resolveBranches_error k repo version w0 err :
  outcome (resolveBranches k repo version w0) = inl err →
  ∃ e, e ∈ trace (resolveBranches k repo version w0) ∧ ev_result e = inl err.
Proof.
  remember (resolveBranches k repo version w0) as r eqn:Hr. revert Hr.
  unfold resolveBranches. unfold_api.
  rewrite then_run; run_simpl. exec_invoke.
  2: rewrite then_run; run_simpl; do 3 exec_invoke.
  all: try rewrite then_run; run_simpl; try do 3 exec_invoke.
  all: intros ->; cbn.
  all: try (intros [=]; fail).
  all: intros [= <-].
  all: match goal with
       | |- ∃ e, e ∈ ?tr ∧ ev_result e = inl ?err =>
           match tr with
           | context [ {| ev_call := ?c; ev_pre := ?p; ev_result := inl err;
                          ev_post := ?q |} ] =>
               exists {| ev_call := c; ev_pre := p; ev_result := inl err;
                         ev_post := q |}
           end
       end.
  all: split; [in_trace | reflexivity].
Qed.

(** What the resolution does with the configuration it read. *)
Lemma resolveBranches_config k repo version w0 cfg :
  (eng_getConfig repo w0).1 = inr cfg →
  let r0 := resolveBranches k repo version w0 in
  (∃ rest, map ev_call (trace r0) = lookup_calls k version cfg ++ rest ∧
           (first_rejection is_branch_lookup (trace r0) = None ∨
            rest = [] ∧ ∃ e, outcome r0 = inl e)) ∧
  (∀ t, outcome r0 = inr t →
     first_rejection is_branch_lookup (trace r0) = None ∧
     workflowBranchName t = js_concat (cfg !! prefixKey k) version ∧
     versionPrefix t = cfg !! "gitflow.prefix.versiontag").
Proof.
  intros Hcfg r0. subst r0. revert Hcfg.
  remember (resolveBranches k repo version w0) as r eqn:Hr. revert Hr.
  unfold resolveBranches, lookup_calls. unfold_api.
  rewrite then_run; run_simpl. exec_invoke; [by intros _ [=]|].
  rewrite then_run; run_simpl. do 3 exec_invoke.
  all: try rewrite then_run; run_simpl; try do 3 exec_invoke.
  all: intros -> [= ->]; cbn.
  all: split; [eexists; split; [reflexivity|]; eauto|].
  all: by intros ? [= <-].
Qed.

(** When a branch lookup fails, [finish] is rejected after the three
    lookups: no commit is read, no callback is called, nothing is merged,
    tagged or deleted. *)
Theorem finish_stops_at_missing_branch k repo version options w0 cfg err :
  truthy version = true →
  (eng_getConfig repo w0).1 = inr cfg →
  first_rejection is_branch_lookup
    (trace (finish k (Some repo) version options w0)) = Some err →
  (∃ e, outcome (finish k (Some repo) version options w0) = inl e) ∧
  map ev_call (trace (finish k (Some repo) version options w0))
  = lookup_calls k version cfg.
Proof.
  intros Hv Hcfg. rewrite finish_run by done.
  destruct (resolveBranches_config k repo version w0 cfg Hcfg)
    as ((rest & Hcalls & Hrej) & Hok).
  destruct (outcome (resolveBranches k repo version w0)) as [e|t] eqn:Hout;
    cbn [trace prepend outcome].
  - intros Hfail. destruct Hrej as [Hnone|[-> _]]; [congruence|].
    rewrite app_nil_r in Hcalls. eauto.
  - destruct (Hok t eq_refl) as (Hnone & _).
    rewrite first_rejection_app, Hnone.
    rewrite first_rejection_none; [done|].
    apply (finishSteps_made repo version (default no_options options) t).
    by intros [].
Qed.

(** The error of a rejected [finish] is the error of one of the calls it
    made, unchanged; once the branches are resolved it is the error of the
    last call: nothing is attempted after a failure. *)
Theorem finish_error_is_call_error k repo version options w0 err :
  truthy version = true →
  outcome (finish k (Some repo) version options w0) = inl err →
  let r := finish k (Some repo) version options w0 in
  (∃ e, e ∈ trace r ∧ ev_result e = inl err) ∧
  (∀ t, outcome (resolveBranches k repo version w0) = inr t →
     ∃ e, last (trace r) = Some e ∧ ev_result e = inl err ∧ final r = ev_post e).
Proof.
  intros Hv Hfail r. subst r. revert Hfail. rewrite finish_run by done.
  pose proof (resolveBranches_error k repo version w0) as Herr.
  destruct (outcome (resolveBranches k repo version w0)) as [e|t] eqn:Hout;
    cbn [trace outcome prepend final].
  - intros [= ->]. split; [by apply Herr|]. by intros ? [=].
  - intros (e & Hlast & He & Hfin)%finishSteps_error.
    assert (Hlast' :
      last (trace (resolveBranches k repo version w0) ++
            trace (finishSteps repo version (default no_options options) t
                     (final (resolveBranches k repo version w0)))) = Some e).
    { destruct (trace (finishSteps _ _ _ _ _)) as [|x l]; [done|].
      by rewrite last_app_cons. }
    split.
    + exists e. split; [|done]. by apply last_Some_elem_of.
    + intros ? [= <-]. by exists e.
Qed.
End FinishFailures.

Lemma finish_stops_at_missing_branch_witness :
  ∃ err,
    truthy (Some "7.0") = true ∧
    (eng_getConfig Scenario.repo (MemGit.scenario "hotfix/1.0")).1
    = inr MemGit.gitflow ∧
    first_rejection is_branch_lookup
      (trace (finish Hotfix (Some Scenario.repo) (Some "7.0") None
                (MemGit.scenario "hotfix/1.0"))) = Some err ∧
    (∃ e, outcome (finish Hotfix (Some Scenario.repo) (Some "7.0") None
                     (MemGit.scenario "hotfix/1.0")) = inl e) ∧
    map ev_call (trace (finish Hotfix (Some Scenario.repo) (Some "7.0") None
                          (MemGit.scenario "hotfix/1.0")))
    = lookup_calls Hotfix (Some "7.0") MemGit.gitflow.
Proof.
  eexists. split; [reflexivity|]. split; [reflexivity|].
  split; [vm_compute; reflexivity|].
  eapply (finish_stops_at_missing_branch Hotfix Scenario.repo (Some "7.0") None
            (MemGit.scenario "hotfix/1.0") MemGit.gitflow).
  - reflexivity.
  - reflexivity.
  - vm_compute; reflexivity.
Defined.

Lemma finish_error_is_call_error_witness :
  ∃ err,
    truthy (Some "1.0") = true ∧
    outcome (finish Hotfix (Some Scenario.repo) (Some "1.0")
               (Some Scenario.beforeMerge_throws)
               (MemGit.scenario "hotfix/1.0")) = inl err ∧
    let r := finish Hotfix (Some Scenario.repo) (Some "1.0")
               (Some Scenario.beforeMerge_throws)
               (MemGit.scenario "hotfix/1.0") in
    (∃ e, e ∈ trace r ∧ ev_result e = inl err) ∧
    (∀ t, outcome (resolveBranches Hotfix Scenario.repo (Some "1.0")
                     (MemGit.scenario "hotfix/1.0")) = inr t →
       ∃ e, last (trace r) = Some e ∧ ev_result e = inl err ∧
            final r = ev_post e).
Proof.
  eexists. split; [reflexivity|].
  split; [vm_compute; reflexivity|].
  eapply (finish_error_is_call_error Hotfix Scenario.repo (Some "1.0")
            (Some Scenario.beforeMerge_throws)
            (MemGit.scenario "hotfix/1.0")).
  - reflexivity.
  - vm_compute; reflexivity.
Defined.

(** ** Merges, callbacks and names *)

Section Merges.
Context {World Repo : Type} `{!Engine World Repo}.

Lemma existsb_calls {A B} (f : B → bool) (g : A → B) l :
  existsb f (map g l) = existsb (λ x, f (g x)) l.
Proof. induction l as [|x l IH]; cbn; [done|]. by rewrite IH. Qed.

(** A tag is created only after every merge the decision let through
    succeeded, and after [postMasterMergeCallback] when master was merged. *)
Theorem tag_only_after_merges k repo version options w0 t :
  truthy version = true →
  outcome (resolveBranches k repo version w0) = inr t →
  made is_tag (finish k (Some repo) version options w0) = true →
  let o := default no_options options in
  let r := finish k (Some repo) version options w0 in
  (cancelDevelopMerge o t = false →
     succeeded (is_merge Develop) r = true ∧
     succeeded (is_hook PostDevelopMergeCallback) r = true) ∧
  (cancelMasterMerge t = false →
     succeeded (is_merge Master) r = true ∧
     succeeded (is_hook PostMasterMergeCallback) r = true).
Proof.
  intros Hv Hres Htag o r. subst r. revert Htag.
  rewrite finish_run, Hres by done.
  rewrite made_prepend, !succeeded_prepend.
  pose proof (resolveBranches_made k repo version w0 is_tag) as Hpre.
  unfold made in Hpre at 1. rewrite Hpre by done. cbn [orb]. clear Hpre Hres Hv.
  generalize (trace (resolveBranches k repo version w0)). intros tr1.
  generalize (final (resolveBranches k repo version w0)). intros w1.
  fold o.
  exec_finish (finishSteps repo version o t w1) o t.
  all: try (intros [=]; fail).
  all: intros _; split; intros Hc; try discriminate Hc.
  all: by rewrite !orb_true_r.
Qed.

(** With no tag prefix in the configuration the tag that [finish] creates
    is named ["undefined"] followed by the version. *)
Theorem finish_without_tag_prefix k repo version options w0 cfg v :
  (eng_getConfig repo w0).1 = inr cfg →
  cfg !! "gitflow.prefix.versiontag" = None →
  outcome (finish k (Some repo) version options w0) = inr v →
  ∃ e oid,
    e ∈ trace (finish k (Some repo) version options w0) ∧
    ev_call e
    = CallTagCreate oid ("undefined" ++ js_text version)
        (message (default no_options options)) ∧
    ok e.
Proof.
  intros Hcfg Hnone Hok.
  destruct (finish_resolved_inv _ _ _ _ _ _ Hok) as (? & t & [= <-] & Hv & Hres).
  destruct (resolveBranches_config k repo version w0 cfg Hcfg) as (_ & Ht).
  destruct (Ht t Hres) as (_ & _ & Hprefix). rewrite Hnone in Hprefix.
  revert Hok. rewrite finish_run, Hres by done. clear Ht Hres Hv.
  cbn [trace prepend].
  generalize (trace (resolveBranches k repo version w0)). intros tr1.
  generalize (final (resolveBranches k repo version w0)). intros w1.
  exec_finish (finishSteps repo version (default no_options options) t w1)
    (default no_options options) t.
  all: try (intros [=]; fail).
  all: intros _; rewrite Hprefix.
  all: match goal with
       | |- context [ {| ev_call := CallTagCreate ?x ?n ?m; ev_pre := ?p;
                         ev_result := ?r; ev_post := ?q |} ] =>
           exists {| ev_call := CallTagCreate x n m; ev_pre := p;
                     ev_result := r; ev_post := q |}, x
       end.
  all: split; [in_trace|]; split; [reflexivity | by eexists].
Qed.

(** [finish] looks up, and unless told to keep it deletes, the branch that
    [start] creates for the same version, as long as the configured prefix
    is the same in both calls. *)
Theorem finish_targets_the_branch_of_start
    k repo version o1 o2 w0 w0' cfg cfg' name :
  truthy version = true →
  (eng_getConfig repo w0).1 = inr cfg →
  (eng_getConfig repo w0').1 = inr cfg' →
  cfg !! prefixKey k = cfg' !! prefixKey k →
  made (is_create_named name) (start k (Some repo) version o1 w0) = true →
  let r := finish k (Some repo) version o2 w0' in
  made (is_lookup_named name) r = true ∧
  (∀ v, outcome r = inr v →
     truthy (keepBranch (default no_options o2)) = false →
     made (is_delete_named name) r = true).
Proof.
  intros Hv Hcfg Hcfg' Heq Hcreate r. subst r.
  assert (Hname : name = js_concat (cfg' !! prefixKey k) version).
  { rewrite <- Heq. clear Heq Hcfg'. revert Hcfg Hcreate.
    exec_whole_start k w0.
    all: try (intros _ [=]; fail).
    all: intros [= ->]; rewrite ?orb_false_r.
    all: by intros ->%String.eqb_eq. }
  clear Hcreate Hcfg Heq.
  destruct (resolveBranches_config k repo version w0' cfg' Hcfg')
    as ((rest & Hcalls & _) & Ht).
  assert (Hlook : existsb (λ e, is_lookup_named name (ev_call e))
                    (trace (resolveBranches k repo version w0')) = true).
  { rewrite <- (existsb_calls (is_lookup_named name) ev_call), Hcalls.
    cbn. rewrite <- Hname, String.eqb_refl. by rewrite orb_true_r. }
  rewrite finish_run by done.
  destruct (outcome (resolveBranches k repo version w0')) as [e|t] eqn:Hres.
  { split; [exact Hlook|by intros ? [=]]. }
  rewrite !made_prepend, Hlook. split; [done|].
  destruct (Ht t eq_refl) as (_ & Hwf & _). rewrite <- Hname in Hwf.
  clear Hlook Hcalls Ht Hres.
  generalize (final (resolveBranches k repo version w0')). intros w1.
  generalize (existsb (λ e, is_delete_named name (ev_call e))
                (trace (resolveBranches k repo version w0'))). intros b.
  exec_finish (finishSteps repo version (default no_options o2) t w1)
    (default no_options o2) t.
  all: intros ? [=] Hk; try discriminate Hk.
  all: unfold made; cbn; rewrite Hwf, String.eqb_refl.
  all: by rewrite ?orb_true_r.
Qed.
End Merges.

(** ** The calls of [finish] in all cases of the decision *)

Section Decided.
Context {World Repo : Type} `{!Engine World Repo}.

(** Whatever the cancellation decision, the calls [finish] makes after it are
    an initial segment of: the develop step unless cancelled
    ([beforeMergeCallback], the merge, [postDevelopMergeCallback] on what the
    merge returned); the master step ([beforeMergeCallback], the merge,
    [postMasterMergeCallback] on what the merge returned, the tag on what
    that callback returned) or, with the master merge cancelled, the tag
    alone, on the commit of master; then the cleanup, which is empty with
    [keepBranch].  Each call starts in the world the previous one left and
    only after it succeeded; all are made when [finish] resolves, to
    [undefined] when the develop merge is cancelled and to what
    [postDevelopMergeCallback] returned otherwise. *)
Theorem finish_calls_in_all_cases k repo version options w0 t :
  truthy version = true →
  outcome (resolveBranches k repo version w0) = inr t →
  let o := default no_options options in
  let r0 := resolveBranches k repo version w0 in
  let r := finish k (Some repo) version options w0 in
  ∃ tr2 m1 d m2 oid cleanup,
    trace r = trace r0 ++ tr2 ∧
    chained (final r0) tr2 (final r) ∧
    fail_fast tr2 ∧
    map ev_call tr2 `prefix_of` decided_calls version o t m1 m2 oid ++ cleanup ∧
    answers tr2 (decided_results o t m1 d m2 oid) ∧
    Forall (λ c, is_cleanup c = true) cleanup ∧
    (truthy (keepBranch o) = true → cleanup = []) ∧
    (∀ v, outcome r = inr v →
       map ev_call tr2 = decided_calls version o t m1 m2 oid ++ cleanup ∧
       v = if cancelDevelopMerge o t then VUndefined else d).
Proof.
  intros Hv Hres o r0 r. subst r r0.
  rewrite finish_run, Hres by done. clear Hres Hv.
  generalize (trace (resolveBranches k repo version w0)). intros tr1.
  generalize (final (resolveBranches k repo version w0)). intros w1.
  fold o. unfold decided_calls, decided_results.
  exec_finish (finishSteps repo version o t w1) o t.
  all: eexists _, _, _, _, _, _.
  all: split; [reflexivity|].
  all: split; [by cbn|].
  all: split; [cbn; repeat split; by eexists|].
  all: match goal with
       | |- _ ∧ _ ∧ Forall _ ?c ∧ _ =>
           first
             [ split; [exists []; cbn; reflexivity|]
             | unify c (@nil Call); split; [eexists; cbn; reflexivity|] ]
       end.
  all: split; [cbn; repeat match goal with |- _ ∧ _ => split end; done|].
  all: split; [repeat constructor|].
  all: split; [intros Hk; try discriminate Hk; try reflexivity|].
  all: intros ? [=]; subst; split; reflexivity.
  Unshelve. all: exact VUndefined.
Qed.
End Decided.

Lemma finish_calls_in_all_cases_witness :
  ∃ t,
    truthy (Some "1.0") = true ∧
    outcome (resolveBranches Hotfix Scenario.repo (Some "1.0")
               (MemGit.scenario "hotfix/1.0")) = inr t ∧
    let o : Options MemGit.Repository := default no_options (Some Scenario.keep) in
    let r0 := resolveBranches Hotfix Scenario.repo (Some "1.0")
                (MemGit.scenario "hotfix/1.0") in
    let r := finish Hotfix (Some Scenario.repo) (Some "1.0") (Some Scenario.keep)
               (MemGit.scenario "hotfix/1.0") in
    ∃ tr2 m1 d m2 oid cleanup,
      trace r = trace r0 ++ tr2 ∧
      chained (final r0) tr2 (final r) ∧
      fail_fast tr2 ∧
      map ev_call tr2
        `prefix_of` decided_calls (Some "1.0") o t m1 m2 oid ++ cleanup ∧
      answers tr2 (decided_results o t m1 d m2 oid) ∧
      Forall (λ c, is_cleanup c = true) cleanup ∧
      (truthy (keepBranch o) = true → cleanup = []) ∧
      (∀ v, outcome r = inr v →
         map ev_call tr2 = decided_calls (Some "1.0") o t m1 m2 oid ++ cleanup ∧
         v = if cancelDevelopMerge o t then VUndefined else d).
Proof.
  eexists. split; [reflexivity|]. split; [vm_compute; reflexivity|].
  eapply (finish_calls_in_all_cases Hotfix Scenario.repo (Some "1.0")
            (Some Scenario.keep) (MemGit.scenario "hotfix/1.0")).
  - reflexivity.
  - vm_compute; reflexivity.
Defined.

Lemma tag_only_after_merges_witness :
  ∃ t,
    truthy (Some "1.0") = true ∧
    outcome (resolveBranches Hotfix Scenario.repo (Some "1.0")
               (MemGit.scenario "hotfix/1.0")) = inr t ∧
    made is_tag (finish Hotfix (Some Scenario.repo) (Some "1.0") None
                   (MemGit.scenario "hotfix/1.0")) = true ∧
    let o : Options MemGit.Repository := default no_options None in
    let r := finish Hotfix (Some Scenario.repo) (Some "1.0") None
               (MemGit.scenario "hotfix/1.0") in
    (cancelDevelopMerge o t = false →
       succeeded (is_merge Develop) r = true ∧
       succeeded (is_hook PostDevelopMergeCallback) r = true) ∧
    (cancelMasterMerge t = false →
       succeeded (is_merge Master) r = true ∧
       succeeded (is_hook PostMasterMergeCallback) r = true).
Proof.
  eexists. split; [reflexivity|]. split; [vm_compute; reflexivity|].
  split; [vm_compute; reflexivity|].
  eapply (tag_only_after_merges Hotfix Scenario.repo (Some "1.0") None
            (MemGit.scenario "hotfix/1.0")).
  - reflexivity.
  - vm_compute; reflexivity.
  - vm_compute; reflexivity.
Defined.

Lemma finish_without_tag_prefix_witness :
  ∃ v,
    (eng_getConfig Scenario.repo (bare_scenario "undefined1.0")).1
    = inr bare_config ∧
    bare_config !! "gitflow.prefix.versiontag" = None ∧
    outcome (finish Release (Some Scenario.repo) (Some "1.0") None
               (bare_scenario "undefined1.0")) = inr v ∧
    ∃ e oid,
      e ∈ trace (finish Release (Some Scenario.repo) (Some "1.0") None
                   (bare_scenario "undefined1.0")) ∧
      ev_call e
      = CallTagCreate oid ("undefined" ++ js_text (Some "1.0"))
          (message (default no_options
                      (None : option (Options MemGit.Repository)))) ∧
      ok e.
Proof.
  eexists. split; [reflexivity|]. split; [vm_compute; reflexivity|].
  split; [vm_compute; reflexivity|].
  eapply (finish_without_tag_prefix Release Scenario.repo (Some "1.0") None
            (bare_scenario "undefined1.0") bare_config).
  - reflexivity.
  - vm_compute; reflexivity.
  - vm_compute; reflexivity.
Defined.

Lemma finish_targets_the_branch_of_start_witness :
  truthy (Some "1.0") = true ∧
  (eng_getConfig Scenario.repo (MemGit.scenario "hotfix/2.0")).1
  = inr MemGit.gitflow ∧
  (eng_getConfig Scenario.repo (MemGit.scenario "hotfix/1.0")).1
  = inr MemGit.gitflow ∧
  MemGit.gitflow !! prefixKey Hotfix = MemGit.gitflow !! prefixKey Hotfix ∧
  made (is_create_named "hotfix/1.0")
    (start Hotfix (Some Scenario.repo) (Some "1.0") None
       (MemGit.scenario "hotfix/2.0")) = true ∧
  let r := finish Hotfix (Some Scenario.repo) (Some "1.0") None
             (MemGit.scenario "hotfix/1.0") in
  made (is_lookup_named "hotfix/1.0") r = true ∧
  (∀ v, outcome r = inr v →
     truthy (keepBranch (default no_options
                           (None : option (Options MemGit.Repository)))) = false →
     made (is_delete_named "hotfix/1.0") r = true).
Proof.
  split; [reflexivity|]. split; [reflexivity|]. split; [reflexivity|].
  split; [reflexivity|]. split; [vm_compute; reflexivity|].
  apply (finish_targets_the_branch_of_start Hotfix Scenario.repo (Some "1.0")
           None None (MemGit.scenario "hotfix/2.0")
           (MemGit.scenario "hotfix/1.0") MemGit.gitflow MemGit.gitflow
           "hotfix/1.0").
  - reflexivity.
  - reflexivity.
  - reflexivity.
  - reflexivity.
  - vm_compute; reflexivity.
Defined.

(** ** The callback before the merges *)

(** The ways to split the executed trace of [H] around one of its events. *)
Ltac split_trace H :=
  repeat match type of H with
         | [] = ?pre ++ _ :: _ => destruct pre; discriminate H
         | _ :: _ = ?pre ++ _ :: _ =>
             destruct pre as [|? pre]; cbn in H;
             [ injection H as <- <- | injection H as <- H ]
         end.

Section Announce.
Context {World Repo : Type} `{!Engine World Repo}.

(** [beforeMergeCallback] is called once before each merge and never for a
    cancelled one.  After the resolution, which calls neither, every merge
    goes into a branch whose merge is not cancelled and directly follows the
    call of [beforeMergeCallback] that announces it, which returned; every
    call of [beforeMergeCallback] announces a merge that is not cancelled,
    and that merge is the next call when it returns.  Each merge is called
    at most once, exactly once when it is not cancelled and [finish]
    resolves, and [beforeMergeCallback] as often as there are merges to
    perform. *)
Theorem beforeMergeCallback_per_merge k repo version options w0 t :
  truthy version = true →
  outcome (resolveBranches k repo version w0) = inr t →
  let o := default no_options options in
  let r0 := resolveBranches k repo version w0 in
  let r := finish k (Some repo) version options w0 in
  let due_develop := if cancelDevelopMerge o t then 0 else 1 in
  let due_master := if cancelMasterMerge t then 0 else 1 in
  made (λ c, is_hook BeforeMergeCallback c
             || is_merge Develop c || is_merge Master c) r0 = false ∧
  count (is_merge Develop) r ≤ due_develop ∧
  count (is_merge Master) r ≤ due_master ∧
  count (is_hook BeforeMergeCallback) r ≤ merges_due o t ∧
  (∀ v, outcome r = inr v →
     count (is_merge Develop) r = due_develop ∧
     count (is_merge Master) r = due_master ∧
     count (is_hook BeforeMergeCallback) r = merges_due o t) ∧
  ∃ tr2,
    trace r = trace r0 ++ tr2 ∧
    (∀ pre e post tg into from,
       tr2 = pre ++ e :: post →
       ev_call e = CallMerge tg into from →
       cancelled tg o t = false ∧
       into = target_branch tg t ∧ from = workflowBranch t ∧
       ∃ pre' e0,
         pre = pre' ++ [e0] ∧ ok e0 ∧ ev_call e0 = announcement tg t) ∧
    (∀ pre e post args,
       tr2 = pre ++ e :: post →
       ev_call e = CallHook BeforeMergeCallback args →
       ∃ tg,
         cancelled tg o t = false ∧
         ev_call e = announcement tg t ∧
         (ok e →
          ∃ e' post',
            post = e' :: post' ∧
            ev_call e'
            = CallMerge tg (target_branch tg t) (workflowBranch t))).
Proof.
  intros Hv Hres o r0 r due_develop due_master.
  subst due_develop due_master r r0.
  split; [by apply resolveBranches_made|].
  rewrite finish_run, Hres by done. rewrite !count_prepend.
  pose proof (resolveBranches_made k repo version w0) as Hpre.
  unfold made in Hpre at 1.
  rewrite !(filter_none _ _ (Hpre _ eq_refl (λ _, eq_refl) (λ _, eq_refl))).
  cbn [length plus]. clear Hpre Hres Hv. unfold merges_due.
  generalize (trace (resolveBranches k repo version w0)). intros tr1.
  generalize (final (resolveBranches k repo version w0)). intros w1.
  fold o.
  exec_finish (finishSteps repo version o t w1) o t.
  all: unfold count; cbn.
  all: split; [lia|]; split; [lia|]; split; [lia|].
  all: split; [by intros ? [=]|].
  all: eexists; split; [reflexivity|].
  all: split.
  all: try (intros pre e' post tg into from Hsplit Hcall;
            split_trace Hsplit; cbn in Hcall;
            first
              [ discriminate Hcall
              | injection Hcall as <- <- <-;
                split; [done|]; split; [reflexivity|]; split; [reflexivity|];
                eexists _, _;
                split; [repeat first [apply suffix_here | apply suffix_step]|];
                split; [by eexists | reflexivity] ]).
  all: intros pre e' post args Hsplit Hcall;
    split_trace Hsplit; cbn in Hcall;
    first
      [ discriminate Hcall
      | injection Hcall as <-;
        first
          [ exists Develop; split; [done|]; split; [reflexivity|]
          | exists Master; split; [done|]; split; [reflexivity|] ];
        intros Hok;
        first [ destruct Hok as [? Hx]; discriminate Hx
              | eexists _, _; split; reflexivity ] ].
Qed.
End Announce.

Lemma beforeMergeCallback_per_merge_witness :
  truthy (Some "1.0") = true ∧
  outcome (resolveBranches Release Scenario.repo (Some "1.0")
             (MemGit.scenario "release/1.0"))
  = inr (scenario_resolved "release/1.0") ∧
  let o : Options MemGit.Repository := default no_options None in
  let t := scenario_resolved "release/1.0" in
  let r0 := resolveBranches Release Scenario.repo (Some "1.0")
              (MemGit.scenario "release/1.0") in
  let r := finish Release (Some Scenario.repo) (Some "1.0") None
             (MemGit.scenario "release/1.0") in
  let due_develop := if cancelDevelopMerge o t then 0 else 1 in
  let due_master := if cancelMasterMerge t then 0 else 1 in
  made (λ c, is_hook BeforeMergeCallback c
             || is_merge Develop c || is_merge Master c) r0 = false ∧
  count (is_merge Develop) r ≤ due_develop ∧
  count (is_merge Master) r ≤ due_master ∧
  count (is_hook BeforeMergeCallback) r ≤ merges_due o t ∧
  (∀ v, outcome r = inr v →
     count (is_merge Develop) r = due_develop ∧
     count (is_merge Master) r = due_master ∧
     count (is_hook BeforeMergeCallback) r = merges_due o t) ∧
  ∃ tr2,
    trace r = trace r0 ++ tr2 ∧
    (∀ pre e post tg into from,
       tr2 = pre ++ e :: post →
       ev_call e = CallMerge tg into from →
       cancelled tg o t = false ∧
       into = target_branch tg t ∧ from = workflowBranch t ∧
       ∃ pre' e0,
         pre = pre' ++ [e0] ∧ ok e0 ∧ ev_call e0 = announcement tg t) ∧
    (∀ pre e post args,
       tr2 = pre ++ e :: post →
       ev_call e = CallHook BeforeMergeCallback args →
       ∃ tg,
         cancelled tg o t = false ∧
         ev_call e = announcement tg t ∧
         (ok e →
          ∃ e' post',
            post = e' :: post' ∧
            ev_call e'
            = CallMerge tg (target_branch tg t) (workflowBranch t))).
Proof.
  split; [reflexivity|]. split; [vm_compute; reflexivity|].
  apply (beforeMergeCallback_per_merge Release Scenario.repo (Some "1.0") None
           (MemGit.scenario "release/1.0") (scenario_resolved "release/1.0")).
  - reflexivity.
  - vm_compute; reflexivity.
Defined.
